(** * location/location_driver.c: the pluggable location driver layer

    A shallow embedding of RetroArch's location driver front end: the
    sentinel-terminated registry [location_drivers], the selection done by
    [find_location_driver], the life cycle ([init_location],
    [uninit_location]), the control entry point [location_driver_ctl] and
    the four capability forwarders.

    The file-level statics of the C file become the fields of [state];
    everything the C code reaches through a getter ([config_get_ptr],
    [verbosity_is_enabled], [runloop_get_system_info]) is gathered in [ctx];
    calls that leave this file (driver slots, session hooks, log macros, the
    message queue, [driver_ctl]) are recorded in a trace of [event]s. *)

From Stdlib Require Import ZArith List String Ascii Bool Lia.
From Stdlib Require Import SpecFloat.
Import ListNotations.

Local Open Scope string_scope.
Local Open Scope list_scope.
Local Open Scope Z_scope.

(** ** Results of a call *)

(** A C call either returns, leaves through [retroarch_fail], or does
    something the C standard leaves undefined (a read outside an array, a
    call through a NULL function pointer). [OutOfFuel] belongs to the model
    only: a loop given too few iterations to finish. *)
Inductive outcome (A : Type) : Type :=
| Ret (a : A)
| Fail (error_code : Z) (error : string)
| Undefined
| OutOfFuel.

Arguments Ret {A} a.
Arguments Fail {A} error_code error.
Arguments Undefined {A}.
Arguments OutOfFuel {A}.

Definition bind {A B : Type} (m : outcome A) (k : A -> outcome B) : outcome B :=
  match m with
  | Ret a => k a
  | Fail c e => Fail c e
  | Undefined => Undefined
  | OutOfFuel => OutOfFuel
  end.

Notation "x <- m ;; k" := (bind m (fun x => k))
  (at level 61, m at next level, right associativity).

(** ** Plain data *)

(** A non-NULL [void *]; [option handle] is a pointer that may be NULL. *)
Definition handle : Type := positive.

(** A C [double], as its IEEE 754 datum; [0.0] is positive zero. *)
Definition double : Type := spec_float.
Definition double_zero : double := S754_zero false.

(** The four cells [lat], [lon], [horiz_accuracy], [vert_accuracy] that
    [driver_location_get_position] receives by pointer. *)
Record position : Type := mk_position {
  lat : double;
  lon : double;
  horiz_accuracy : double;
  vert_accuracy : double
}.

Definition zero_position : position :=
  mk_position double_zero double_zero double_zero double_zero.

(** The two enumerations of the message queue are declared outside this
    file; the enumerators it names are kept, any other one by its value. *)
Inductive message_queue_icon : Type :=
| MESSAGE_QUEUE_ICON_DEFAULT
| MESSAGE_QUEUE_ICON_other (value : Z).

Inductive message_queue_category : Type :=
| MESSAGE_QUEUE_CATEGORY_INFO
| MESSAGE_QUEUE_CATEGORY_other (value : Z).

(** Calls that leave location_driver.c, in the order they are made. *)
Inductive event : Type :=
| ev_RARCH_ERR (msg : string)
| ev_RARCH_LOG_OUTPUT (msg : string)
| ev_RARCH_WARN (msg : string)
| ev_runloop_msg_queue_push (msg : string) (prio duration : Z) (flush : bool)
    (title : option string) (icon : message_queue_icon)
    (category : message_queue_category)
| ev_driver_ctl_find_index (label s : string)
| ev_init (drv : string) (res : option handle)
| ev_free (drv : string) (data : handle)
| ev_start (drv : string) (data : handle) (res : bool)
| ev_stop (drv : string) (data : handle)
| ev_set_interval (drv : string) (data : handle) (interval_msecs interval_distance : Z)
| ev_get_position (drv : string) (data : handle) (res : bool)
| ev_cb_initialized
| ev_cb_deinitialized.

(** The opcodes [location_driver_ctl] switches on; every other enumerator
    of [enum rarch_location_ctl_state] takes the [default] branch and is
    kept with its integer value. *)
Inductive rarch_location_ctl_state : Type :=
| RARCH_LOCATION_CTL_DESTROY
| RARCH_LOCATION_CTL_DEINIT
| RARCH_LOCATION_CTL_SET_OWN_DRIVER
| RARCH_LOCATION_CTL_UNSET_OWN_DRIVER
| RARCH_LOCATION_CTL_OWNS_DRIVER
| RARCH_LOCATION_CTL_SET_ACTIVE
| RARCH_LOCATION_CTL_UNSET_ACTIVE
| RARCH_LOCATION_CTL_IS_ACTIVE
| RARCH_LOCATION_CTL_other (value : Z).

Definition nl : string := String (ascii_of_nat 10) EmptyString.
Definition tab : string := String (ascii_of_nat 9) EmptyString.
Definition dquote : string := String (ascii_of_nat 34) EmptyString.

Section Model.

(** What lies below this layer (driver internals, whatever the session
    hooks touch). The driver slots and hooks act on it; this file never
    looks inside. *)
Context {world : Type}.

(** ** Descriptors *)

(** [location_driver_t]: a table of function pointers, each of which may be
    NULL, and the driver's name. *)
Record location_driver_t : Type := mk_location_driver {
  init : option (world -> option handle * world);
  free : option (handle -> world -> world);
  start : option (handle -> world -> bool * world);
  stop : option (handle -> world -> world);
  get_position : option (handle -> position -> world -> bool * position * world);
  set_interval : option (handle -> Z -> Z -> world -> world);
  ident : string
}.

(** [settings->arrays.location_driver] and [settings->bools.location_allow]. *)
Record settings_t : Type := mk_settings {
  location_driver_name : string;
  location_allow : bool
}.

(** [system->location_cb]: the two optional session hooks. *)
Record location_cb_t : Type := mk_location_cb {
  initialized : option (world -> world);
  deinitialized : option (world -> world)
}.

(** What a call reads through [config_get_ptr], [verbosity_is_enabled] and
    [runloop_get_system_info]. *)
Record ctx : Type := mk_ctx {
  settings : settings_t;
  verbosity_is_enabled : bool;
  location_cb : location_cb_t
}.

(** The statics of the file ([location_driver], [location_data], and the two
    function-level statics of [location_driver_ctl]) with the world below
    and the trace of outgoing calls. *)
Record state : Type := mk_state {
  location_driver : option location_driver_t;
  location_data : option handle;
  location_driver_active : bool;
  location_driver_data_own : bool;
  the_world : world;
  trace : list event
}.

(** Static storage starts out zeroed. *)
Definition initial_state (w : world) : state :=
  mk_state None None false false w [].

Definition set_location_driver (d : option location_driver_t) (st : state) : state :=
  mk_state d (location_data st) (location_driver_active st)
    (location_driver_data_own st) (the_world st) (trace st).

Definition set_location_data (h : option handle) (st : state) : state :=
  mk_state (location_driver st) h (location_driver_active st)
    (location_driver_data_own st) (the_world st) (trace st).

Definition set_active (b : bool) (st : state) : state :=
  mk_state (location_driver st) (location_data st) b
    (location_driver_data_own st) (the_world st) (trace st).

Definition set_data_own (b : bool) (st : state) : state :=
  mk_state (location_driver st) (location_data st) (location_driver_active st)
    b (the_world st) (trace st).

Definition set_world (w : world) (st : state) : state :=
  mk_state (location_driver st) (location_data st) (location_driver_active st)
    (location_driver_data_own st) w (trace st).

Definition emit (e : event) (st : state) : state :=
  mk_state (location_driver st) (location_data st) (location_driver_active st)
    (location_driver_data_own st) (the_world st) (trace st ++ [e]).

(** Several outgoing calls in a row. *)
Definition emit_all (es : list event) (st : state) : state :=
  mk_state (location_driver st) (location_data st) (location_driver_active st)
    (location_driver_data_own st) (the_world st) (trace st ++ es).

(** ** The registry *)

(** The descriptors the preprocessor leaves in [location_drivers], in
    order, before the closing NULL. *)
Variable entries : list location_driver_t.

(** [static const location_driver_t *location_drivers[]]. *)
Definition location_drivers : list (option location_driver_t) :=
  map Some entries ++ [None].

(** [a[idx]] for an array of known extent: defined only inside it. *)
Definition array_read {A : Type} (a : list A) (idx : Z) : outcome A :=
  if (0 <=? idx) && (idx <? Z.of_nat (List.length a)) then
    match nth_error a (Z.to_nat idx) with
    | Some x => Ret x
    | None => Undefined
    end
  else Undefined.

Definition location_driver_find_handle (idx : Z) : outcome (option location_driver_t) :=
  drv <- array_read location_drivers idx ;;
  match drv with
  | None => Ret None
  | Some d => Ret (Some d)
  end.

Definition location_driver_find_ident (idx : Z) : outcome (option string) :=
  drv <- array_read location_drivers idx ;;
  match drv with
  | None => Ret None
  | Some d => Ret (Some (ident d))
  end.

(** ** Selection *)

(** Modelled from the spec: [driver_ctl(RARCH_DRIVER_CTL_FIND_INDEX, &drv)]
    is defined in driver.c. It scans the registry in order for an entry
    whose ident equals the configured name exactly (case-sensitively); the
    first match wins and its index is left in [drv.len], and -1 is left
    there when nothing matches. *)
Fixpoint find_index_from (s : string) (l : list location_driver_t) (i : Z) : Z :=
  match l with
  | [] => -1
  | d :: l' => if String.eqb (ident d) s then i else find_index_from s l' (i + 1)
  end.

Definition driver_find_index (s : string) : Z := find_index_from s entries 0.

(** [for (d = 0; location_driver_find_handle(d); d++)
       RARCH_LOG_OUTPUT("\t%s\n", location_driver_find_ident(d));] *)
Fixpoint log_available (fuel : nat) (d : Z) (st : state) : outcome state :=
  match fuel with
  | O => OutOfFuel
  | S fuel' =>
      h <- location_driver_find_handle d ;;
      match h with
      | None => Ret st
      | Some _ =>
          id <- location_driver_find_ident d ;;
          match id with
          | Some s =>
              log_available fuel' (d + 1)
                (emit (ev_RARCH_LOG_OUTPUT (tab ++ s ++ nl)) st)
          | None => Undefined
          end
      end
  end.

(** Modelled from the spec: [retroarch_fail] is defined in retroarch.c. It
    aborts start-up with the given failure code and a tag that names the
    failing initializer; it does not return to its caller. *)
Definition retroarch_fail {A : Type} (error_code : Z) (error : string) : outcome A :=
  Fail error_code error.

Definition find_location_driver (c : ctx) (st : state) : outcome state :=
  let s := location_driver_name (settings c) in
  let st := emit (ev_driver_ctl_find_index "location_driver" s) st in
  let i := driver_find_index s in
  if 0 <=? i then
    drv <- location_driver_find_handle i ;;
    Ret (set_location_driver drv st)
  else
    st <- (if verbosity_is_enabled c then
             let st := emit (ev_RARCH_ERR
                         ("Couldn't find any location driver named "
                            ++ dquote ++ s ++ dquote ++ nl)) st in
             let st := emit (ev_RARCH_LOG_OUTPUT
                         ("Available location drivers are:" ++ nl)) st in
             st <- log_available (List.length location_drivers) 0 st ;;
             Ret (emit (ev_RARCH_WARN
                    ("Going to default to first location driver..." ++ nl)) st)
           else Ret st) ;;
    drv <- location_driver_find_handle 0 ;;
    let st := set_location_driver drv st in
    match drv with
    | None => retroarch_fail 1 "find_location_driver()"
    | Some _ => Ret st
    end.

(** ** Control entry point and tear-down *)

Definition uninit_location (c : ctx) (st : state) : state :=
  let st :=
    match location_data st, location_driver st with
    | Some data, Some drv =>
        let st :=
          match deinitialized (location_cb c) with
          | Some cb => emit ev_cb_deinitialized (set_world (cb (the_world st)) st)
          | None => st
          end in
        match free drv with
        | Some f =>
            emit (ev_free (ident drv) data) (set_world (f data (the_world st)) st)
        | None => st
        end
    | _, _ => st
    end in
  set_location_data None st.

(** The [void *data] argument is never read and is left out. *)
Definition location_driver_ctl (c : ctx) (op : rarch_location_ctl_state)
    (st : state) : bool * state :=
  match op with
  | RARCH_LOCATION_CTL_DESTROY =>
      (true, set_location_driver None (set_data_own false (set_active false st)))
  | RARCH_LOCATION_CTL_DEINIT => (true, uninit_location c st)
  | RARCH_LOCATION_CTL_SET_OWN_DRIVER => (true, set_data_own true st)
  | RARCH_LOCATION_CTL_UNSET_OWN_DRIVER => (true, set_data_own false st)
  | RARCH_LOCATION_CTL_OWNS_DRIVER => (location_driver_data_own st, st)
  | RARCH_LOCATION_CTL_SET_ACTIVE => (true, set_active true st)
  | RARCH_LOCATION_CTL_UNSET_ACTIVE => (true, set_active false st)
  | RARCH_LOCATION_CTL_IS_ACTIVE => (location_driver_active st, st)
  | RARCH_LOCATION_CTL_other _ => (true, st)
  end.

(** ** Bring-up *)

Definition init_location (c : ctx) (st : state) : outcome state :=
  match location_data st with
  | Some _ => Ret st
  | None =>
      st <- find_location_driver c st ;;
      match location_driver st with
      | None => Undefined
      | Some drv =>
          match init drv with
          | None => Undefined
          | Some f =>
              let '(data, w) := f (the_world st) in
              let st := emit (ev_init (ident drv) data)
                          (set_location_data data (set_world w st)) in
              let st :=
                match data with
                | Some _ => st
                | None =>
                    let st := emit (ev_RARCH_ERR
                      ("Failed to initialize location driver. "
                         ++ "Will continue without location." ++ nl)) st in
                    snd (location_driver_ctl c RARCH_LOCATION_CTL_UNSET_ACTIVE st)
                end in
              match initialized (location_cb c) with
              | Some cb => Ret (emit ev_cb_initialized (set_world (cb (the_world st)) st))
              | None => Ret st
              end
          end
      end
  end.

(** ** Capability forwarders *)

Definition driver_location_start (c : ctx) (st : state) : bool * state :=
  match location_driver st, location_data st with
  | Some drv, Some data =>
      match start drv with
      | Some f =>
          if location_allow (settings c) then
            let '(r, w) := f data (the_world st) in
            (r, emit (ev_start (ident drv) data r) (set_world w st))
          else
            (false,
             emit (ev_runloop_msg_queue_push
                     ("Location is explicitly disabled." ++ nl) 1 180 true None
                     MESSAGE_QUEUE_ICON_DEFAULT MESSAGE_QUEUE_CATEGORY_INFO) st)
      | None => (false, st)
      end
  | _, _ => (false, st)
  end.

Definition driver_location_stop (st : state) : state :=
  match location_driver st, location_data st with
  | Some drv, Some data =>
      match stop drv with
      | Some f => emit (ev_stop (ident drv) data) (set_world (f data (the_world st)) st)
      | None => st
      end
  | _, _ => st
  end.

Definition driver_location_set_interval (interval_msecs interval_distance : Z)
    (st : state) : state :=
  match location_driver st, location_data st with
  | Some drv, Some data =>
      match set_interval drv with
      | Some f =>
          emit (ev_set_interval (ident drv) data interval_msecs interval_distance)
            (set_world (f data interval_msecs interval_distance (the_world st)) st)
      | None => st
      end
  | _, _ => st
  end.

(** [out] is what the four cells hold when the call is made; the result
    carries what they hold when it returns. *)
Definition driver_location_get_position (out : position) (st : state)
    : bool * position * state :=
  match location_driver st, location_data st with
  | Some drv, Some data =>
      match get_position drv with
      | Some f =>
          let '(r, out', w) := f data out (the_world st) in
          (r, out', emit (ev_get_position (ident drv) data r) (set_world w st))
      | None => (false, zero_position, st)
      end
  | _, _ => (false, zero_position, st)
  end.

(** ** Sequences of public calls *)

Inductive op : Type :=
| op_init
| op_ctl (o : rarch_location_ctl_state)
| op_start
| op_stop
| op_set_interval (interval_msecs interval_distance : Z)
| op_get_position (out : position).

Definition exec (c : ctx) (o : op) (st : state) : outcome state :=
  match o with
  | op_init => init_location c st
  | op_ctl o => Ret (snd (location_driver_ctl c o st))
  | op_start => Ret (snd (driver_location_start c st))
  | op_stop => Ret (driver_location_stop st)
  | op_set_interval ms dist => Ret (driver_location_set_interval ms dist st)
  | op_get_position out => Ret (snd (driver_location_get_position out st))
  end.

Fixpoint run (ops : list (ctx * op)) (st : state) : outcome state :=
  match ops with
  | [] => Ret st
  | (c, o) :: ops' => st' <- exec c o st ;; run ops' st'
  end.

(** ** Observations on states and traces *)

(** "Instance handle present implies descriptor reference present". *)
Definition binding_inv (st : state) : Prop :=
  location_data st <> None -> location_driver st <> None.

(** States reached from the zeroed statics by public calls that return,
    where [RARCH_LOCATION_CTL_DESTROY] is only sent while [location_data]
    is NULL. *)
Inductive reachable : state -> Prop :=
| reachable_initial (w : world) : reachable (initial_state w)
| reachable_step (c : ctx) (o : op) (st st' : state) :
    reachable st ->
    (o = op_ctl RARCH_LOCATION_CTL_DESTROY -> location_data st = None) ->
    exec c o st = Ret st' ->
    reachable st'.

End Model.

Arguments location_driver_t world : clear implicits.
Arguments location_cb_t world : clear implicits.
Arguments ctx world : clear implicits.
Arguments state world : clear implicits.

(** Handles a driver's [init] has handed out. *)
Definition is_allocation (e : event) : bool :=
  match e with
  | ev_init _ (Some _) => true
  | _ => false
  end.

Definition allocations (tr : list event) : nat :=
  List.length (filter is_allocation tr).

Definition is_init_call (e : event) : bool :=
  match e with
  | ev_init _ _ => true
  | _ => false
  end.

Definition is_notification (e : event) : bool :=
  match e with
  | ev_runloop_msg_queue_push _ _ _ _ _ _ _ => true
  | _ => false
  end.

Definition is_hook_initialized (e : event) : bool :=
  match e with
  | ev_cb_initialized => true
  | _ => false
  end.

Definition is_diagnostic (e : event) : bool :=
  match e with
  | ev_RARCH_ERR _ | ev_RARCH_LOG_OUTPUT _ | ev_RARCH_WARN _ => true
  | _ => false
  end.

Definition count (p : event -> bool) (tr : list event) : nat :=
  List.length (filter p tr).

(** The lines [find_location_driver] logs when the configured name [s] is
    unknown and verbosity is on: the complaint, the heading, one line per
    registered ident in registry order, and the warning. *)
Definition fallback_diagnostics {world : Type}
    (entries : list (location_driver_t world)) (s : string) : list event :=
  [ev_RARCH_ERR ("Couldn't find any location driver named "
                   ++ dquote ++ s ++ dquote ++ nl);
   ev_RARCH_LOG_OUTPUT ("Available location drivers are:" ++ nl)]
  ++ map (fun d => ev_RARCH_LOG_OUTPUT (tab ++ ident d ++ nl)) entries
  ++ [ev_RARCH_WARN ("Going to default to first location driver..." ++ nl)].


Definition is_free (e : event) : bool :=
  match e with
  | ev_free _ _ => true
  | _ => false
  end.

Definition is_selection (e : event) : bool :=
  match e with
  | ev_driver_ctl_find_index _ _ => true
  | _ => false
  end.

(** 1 while [location_data] holds a handle, 0 while it is NULL. *)
Definition bound_handles {world : Type} (st : state world) : nat :=
  match location_data st with
  | Some _ => 1%nat
  | None => 0%nat
  end.

(** The four statics agree in two states. *)
Definition same_statics {world : Type} (st st' : state world) : Prop :=
  location_driver st' = location_driver st
  /\ location_data st' = location_data st
  /\ location_driver_active st' = location_driver_active st
  /\ location_driver_data_own st' = location_driver_data_own st.

(** [location_driver] is NULL or points at an entry of the registry. *)
Definition points_into {world : Type} (entries : list (location_driver_t world))
    (st : state world) : Prop :=
  match location_driver st with
  | Some d => In d entries
  | None => True
  end.

(** What [uninit_location] calls when both statics are set: the hook, when
    registered, then the driver's [free], when it has one. *)
Definition teardown_calls {world : Type} (c : ctx world)
    (drv : location_driver_t world) (data : handle) : list event :=
  match deinitialized (location_cb c) with
  | Some _ => [ev_cb_deinitialized]
  | None => []
  end
  ++ match free drv with
     | Some _ => [ev_free (ident drv) data]
     | None => []
     end.

(** ** Sample registries and contexts

    Concrete descriptors over a world that counts the calls made into the
    drivers; they serve as inputs where a property is run on a registry. *)

Definition sample_null : location_driver_t nat :=
  mk_location_driver
    (Some (fun w => (Some 1%positive, S w)))
    (Some (fun _ w => S w))
    (Some (fun _ w => (true, S w)))
    (Some (fun _ w => S w))
    (Some (fun _ _ w => (true, zero_position, S w)))
    (Some (fun _ _ _ w => S w))
    "null".

(** A driver whose [init] finds no device and which cannot be polled. *)
Definition sample_sensor : location_driver_t nat :=
  mk_location_driver
    (Some (fun w => (None, S w)))
    (Some (fun _ w => S w))
    (Some (fun _ w => (false, S w)))
    None
    None
    None
    "sensor".

Definition sample_entries : list (location_driver_t nat) :=
  [sample_sensor; sample_null].

Definition sample_cb : location_cb_t nat :=
  mk_location_cb (Some (fun w => (w + 100)%nat)) (Some (fun w => (w + 1000)%nat)).

Definition sample_ctx (name : string) (allow verbose : bool) : ctx nat :=
  mk_ctx (mk_settings name allow) verbose sample_cb.

Definition sample_position : position :=
  mk_position (S754_finite false 1 0) (S754_finite true 3 1)
    S754_nan (S754_infinity false).

(** The state after a successful [init_location] on the sample registry
    with the null driver configured. *)
Definition sample_bound : state nat :=
  mk_state (Some sample_null) (Some 1%positive) false false 101%nat
    [ev_driver_ctl_find_index "location_driver" "null";
     ev_init "null" (Some 1%positive);
     ev_cb_initialized].

(** A run that binds an instance, uses it, sends [DESTROY] before
    [DEINIT], and then brings the driver up again. *)
Definition sample_ops : list (ctx nat * op) :=
  let c := sample_ctx "null" true false in
  [(c, op_init); (c, op_start); (c, op_set_interval 500 10);
   (c, op_ctl RARCH_LOCATION_CTL_DESTROY); (c, op_ctl RARCH_LOCATION_CTL_DEINIT);
   (c, op_init); (c, op_stop)].

Definition sample_final : state nat :=
  match run sample_entries sample_ops (initial_state 0%nat) with
  | Ret st => st
  | _ => initial_state 0%nat
  end.

Example sample_bound_by_init :
  init_location sample_entries (sample_ctx "null" true false) (initial_state 0%nat)
  = Ret sample_bound.
Proof. reflexivity. Qed.

Example sample_init_failure :
  init_location sample_entries (sample_ctx "sensor" true false)
    (snd (location_driver_ctl (sample_ctx "sensor" true false)
            RARCH_LOCATION_CTL_SET_ACTIVE (initial_state 0%nat)))
  = Ret (mk_state (Some sample_sensor) None false false 101%nat
           [ev_driver_ctl_find_index "location_driver" "sensor";
            ev_init "sensor" None;
            ev_RARCH_ERR ("Failed to initialize location driver. "
                            ++ "Will continue without location." ++ nl);
            ev_cb_initialized]).
Proof. reflexivity. Qed.

Example sample_fallback_verbose :
  option_map trace
    (match find_location_driver sample_entries (sample_ctx "gps" true true)
             (initial_state 0%nat) with
     | Ret st => Some st
     | _ => None
     end)
  = Some [ev_driver_ctl_find_index "location_driver" "gps";
          ev_RARCH_ERR ("Couldn't find any location driver named "
                          ++ dquote ++ "gps" ++ dquote ++ nl);
          ev_RARCH_LOG_OUTPUT ("Available location drivers are:" ++ nl);
          ev_RARCH_LOG_OUTPUT (tab ++ "sensor" ++ nl);
          ev_RARCH_LOG_OUTPUT (tab ++ "null" ++ nl);
          ev_RARCH_WARN ("Going to default to first location driver..." ++ nl)].
Proof. reflexivity. Qed.

Example sample_empty_registry :
  init_location [] (sample_ctx "null" true true) (initial_state 0%nat)
  = Fail 1 "find_location_driver()".
Proof. reflexivity. Qed.

(** * Properties *)

Section Registry.

Context {world : Type}.
Variable entries : list (location_driver_t world).

Lemma location_drivers_length :
  List.length (location_drivers entries) = S (List.length entries).
Proof.
  unfold location_drivers.
  rewrite length_app, length_map. simpl. lia.
Qed.

Lemma array_read_inside {A : Type} (a : list A) (k : nat) (x : A) :
  nth_error a k = Some x -> array_read a (Z.of_nat k) = Ret x.
Proof.
  intros H. unfold array_read.
  assert (Hk : (k < List.length a)%nat) by (apply nth_error_Some; congruence).
  replace (0 <=? Z.of_nat k) with true by (symmetry; apply Z.leb_le; lia).
  replace (Z.of_nat k <? Z.of_nat (List.length a)) with true
    by (symmetry; apply Z.ltb_lt; lia).
  simpl. rewrite Nat2Z.id, H. reflexivity.
Qed.

Lemma array_read_outside {A : Type} (a : list A) (idx : Z) :
  idx < 0 \/ Z.of_nat (List.length a) <= idx -> array_read a idx = Undefined.
Proof.
  intros H. unfold array_read.
  destruct (0 <=? idx) eqn:E1; [ | reflexivity ].
  destruct (idx <? Z.of_nat (List.length a)) eqn:E2; [ | reflexivity ].
  apply Z.leb_le in E1. apply Z.ltb_lt in E2. lia.
Qed.

Lemma location_drivers_populated (k : nat) (d : location_driver_t world) :
  nth_error entries k = Some d ->
  nth_error (location_drivers entries) k = Some (Some d).
Proof.
  intros H. unfold location_drivers.
  rewrite nth_error_app1 by (rewrite length_map; apply nth_error_Some; congruence).
  rewrite nth_error_map, H. reflexivity.
Qed.

Lemma location_drivers_sentinel :
  nth_error (location_drivers entries) (List.length entries) = Some None.
Proof.
  unfold location_drivers.
  rewrite nth_error_app2 by (rewrite length_map; lia).
  rewrite length_map, Nat.sub_diag. reflexivity.
Qed.

Lemma find_handle_populated (k : nat) (d : location_driver_t world) :
  nth_error entries k = Some d ->
  location_driver_find_handle entries (Z.of_nat k) = Ret (Some d).
Proof.
  intros H. unfold location_driver_find_handle.
  rewrite (array_read_inside _ _ _ (location_drivers_populated _ _ H)).
  reflexivity.
Qed.

Lemma find_ident_populated (k : nat) (d : location_driver_t world) :
  nth_error entries k = Some d ->
  location_driver_find_ident entries (Z.of_nat k) = Ret (Some (ident d)).
Proof.
  intros H. unfold location_driver_find_ident.
  rewrite (array_read_inside _ _ _ (location_drivers_populated _ _ H)).
  reflexivity.
Qed.

Lemma find_handle_sentinel :
  location_driver_find_handle entries (Z.of_nat (List.length entries)) = Ret None.
Proof.
  unfold location_driver_find_handle.
  rewrite (array_read_inside _ _ _ location_drivers_sentinel). reflexivity.
Qed.

Lemma find_ident_sentinel :
  location_driver_find_ident entries (Z.of_nat (List.length entries)) = Ret None.
Proof.
  unfold location_driver_find_ident.
  rewrite (array_read_inside _ _ _ location_drivers_sentinel). reflexivity.
Qed.

(** C8, as amended. Inside the populated range the lookups return the
    descriptor registered at that index and its ident; at the index of the
    closing NULL, and only there, they return NULL; a negative index or one
    past the closing NULL reads outside [location_drivers], which C leaves
    undefined. *)
Theorem find_handle_by_sentinel (idx : Z) :
  (forall d, 0 <= idx -> nth_error entries (Z.to_nat idx) = Some d ->
     location_driver_find_handle entries idx = Ret (Some d)
     /\ location_driver_find_ident entries idx = Ret (Some (ident d)))
  /\ (idx = Z.of_nat (List.length entries) ->
      location_driver_find_handle entries idx = Ret None
      /\ location_driver_find_ident entries idx = Ret None)
  /\ (idx < 0 \/ Z.of_nat (List.length entries) < idx ->
      location_driver_find_handle entries idx = Undefined
      /\ location_driver_find_ident entries idx = Undefined).
Proof.
  split; [ | split ].
  - intros d Hpos Hd.
    rewrite <- (Z2Nat.id idx Hpos).
    split; [ apply find_handle_populated | apply find_ident_populated ]; exact Hd.
  - intros ->. split; [ apply find_handle_sentinel | apply find_ident_sentinel ].
  - intros Hout.
    unfold location_driver_find_handle, location_driver_find_ident.
    rewrite array_read_outside; [ split; reflexivity | ].
    rewrite location_drivers_length. lia.
Qed.

End Registry.

(** C8, as stated, fails: on a registry of two drivers the closing NULL
    sits at index 2, and neither index 3 nor index -1 yields NULL. *)
Lemma find_handle_past_sentinel :
  location_driver_find_handle sample_entries 3 <> Ret None
  /\ location_driver_find_ident sample_entries 3 <> Ret None
  /\ location_driver_find_handle sample_entries (-1) <> Ret None
  /\ location_driver_find_ident sample_entries (-1) <> Ret None.
Proof. repeat split; discriminate. Qed.

Lemma find_handle_by_sentinel_witness :
  location_driver_find_handle sample_entries 1 = Ret (Some sample_null)
  /\ location_driver_find_ident sample_entries 1 = Ret (Some "null")
  /\ location_driver_find_handle sample_entries 2 = Ret None
  /\ location_driver_find_handle sample_entries 5 = Undefined.
Proof.
  destruct (find_handle_by_sentinel sample_entries 1) as [Hin _].
  destruct (find_handle_by_sentinel sample_entries 2) as [_ [Hend _]].
  destruct (find_handle_by_sentinel sample_entries 5) as [_ [_ Hout]].
  destruct (Hin sample_null) as [H1 H2]; [ lia | reflexivity | ].
  destruct Hend as [H3 _]; [ reflexivity | ].
  destruct Hout as [H4 _]; [ right; simpl; lia | ].
  repeat split; assumption.
Defined.

Section Selection.

Context {world : Type}.
Variable entries : list (location_driver_t world).

Lemma emit_as_emit_all (e : event) (st : state world) :
  emit e st = emit_all [e] st.
Proof. reflexivity. Qed.

Lemma emit_all_app (es1 es2 : list event) (st : state world) :
  emit_all es2 (emit_all es1 st) = emit_all (es1 ++ es2) st.
Proof. unfold emit_all. simpl. rewrite app_assoc. reflexivity. Qed.

Lemma emit_all_nil (st : state world) : emit_all [] st = st.
Proof. destruct st. unfold emit_all. simpl. rewrite app_nil_r. reflexivity. Qed.

(** The scan returns the offset of the first entry named [s]. *)
Lemma find_index_from_hit (s : string) (l : list (location_driver_t world)) (i : Z) :
  In s (map ident l) ->
  exists (k : nat) (d : location_driver_t world),
    nth_error l k = Some d /\ ident d = s
    /\ (forall j d', (j < k)%nat -> nth_error l j = Some d' -> ident d' <> s)
    /\ find_index_from s l i = i + Z.of_nat k.
Proof.
  revert i. induction l as [ | d l IH ]; intros i Hin; [ destruct Hin | ].
  simpl. destruct (String.eqb (ident d) s) eqn:E.
  - apply String.eqb_eq in E.
    exists 0%nat, d. repeat split; [ exact E | intros j d' Hj; lia | simpl; lia ].
  - apply String.eqb_neq in E.
    destruct Hin as [Hd | Hin]; [ contradiction | ].
    destruct (IH (i + 1) Hin) as (k & d0 & Hk & Hid & Hfirst & Hidx).
    exists (S k), d0. repeat split; try assumption.
    + intros [ | j ] d' Hj Hnth; simpl in Hnth.
      * inversion Hnth; subst d'. exact E.
      * apply (Hfirst j d'); [ lia | exact Hnth ].
    + rewrite Hidx. lia.
Qed.

Lemma find_index_from_miss (s : string) (l : list (location_driver_t world)) (i : Z) :
  ~ In s (map ident l) -> find_index_from s l i = -1.
Proof.
  revert i. induction l as [ | d l IH ]; intros i Hnot; [ reflexivity | ].
  simpl. destruct (String.eqb (ident d) s) eqn:E.
  - apply String.eqb_eq in E. exfalso. apply Hnot. left. exact E.
  - apply IH. intros Hin. apply Hnot. right. exact Hin.
Qed.

(** The enumeration loop stops at the closing NULL, having logged one line
    per entry from offset [length pre] on. *)
Lemma log_available_from (suf pre : list (location_driver_t world))
    (fuel : nat) (st : state world) :
  entries = pre ++ suf ->
  (List.length suf < fuel)%nat ->
  log_available entries fuel (Z.of_nat (List.length pre)) st
  = Ret (emit_all (map (fun d => ev_RARCH_LOG_OUTPUT (tab ++ ident d ++ nl)) suf) st).
Proof.
  revert pre fuel st.
  induction suf as [ | d suf IH ]; intros pre fuel st Hsplit Hfuel.
  - destruct fuel as [ | fuel ]; [ simpl in Hfuel; lia | ].
    simpl. rewrite app_nil_r in Hsplit. subst pre.
    rewrite find_handle_sentinel. simpl. rewrite emit_all_nil. reflexivity.
  - destruct fuel as [ | fuel ]; [ simpl in Hfuel; lia | ].
    assert (Hd : nth_error entries (List.length pre) = Some d).
    { rewrite Hsplit, nth_error_app2 by lia. rewrite Nat.sub_diag. reflexivity. }
    cbn [log_available].
    rewrite (find_handle_populated _ _ _ Hd). cbn [bind].
    rewrite (find_ident_populated _ _ _ Hd). cbn [bind].
    replace (Z.of_nat (List.length pre) + 1)
      with (Z.of_nat (List.length (pre ++ [d])))
      by (rewrite length_app; simpl; lia).
    rewrite (IH (pre ++ [d]) fuel).
    + rewrite emit_as_emit_all, emit_all_app. reflexivity.
    + rewrite <- app_assoc. exact Hsplit.
    + simpl in Hfuel. lia.
Qed.

Lemma log_available_all (st : state world) :
  log_available entries (List.length (location_drivers entries)) 0 st
  = Ret (emit_all (map (fun d => ev_RARCH_LOG_OUTPUT (tab ++ ident d ++ nl)) entries) st).
Proof.
  apply (log_available_from entries []); [ reflexivity | ].
  rewrite location_drivers_length. lia.
Qed.

Lemma find_location_driver_hit (c : ctx world) (st : state world) :
  In (location_driver_name (settings c)) (map ident entries) ->
  exists (k : nat) (d : location_driver_t world),
    nth_error entries k = Some d
    /\ ident d = location_driver_name (settings c)
    /\ (forall j d', (j < k)%nat -> nth_error entries j = Some d' ->
          ident d' <> location_driver_name (settings c))
    /\ find_location_driver entries c st
       = Ret (set_location_driver (Some d)
                (emit (ev_driver_ctl_find_index "location_driver"
                         (location_driver_name (settings c))) st)).
Proof.
  intros Hin.
  destruct (find_index_from_hit _ _ 0 Hin) as (k & d & Hk & Hid & Hfirst & Hidx).
  exists k, d. repeat split; try assumption.
  unfold find_location_driver, driver_find_index. rewrite Hidx. simpl (0 + _).
  replace (0 <=? Z.of_nat k) with true by (symmetry; apply Z.leb_le; lia).
  rewrite (find_handle_populated _ _ _ Hk). reflexivity.
Qed.

Lemma find_location_driver_miss (c : ctx world) (st : state world) :
  ~ In (location_driver_name (settings c)) (map ident entries) ->
  find_location_driver entries c st
  = let s := location_driver_name (settings c) in
    let st1 := emit (ev_driver_ctl_find_index "location_driver" s) st in
    let st2 := if verbosity_is_enabled c
               then emit_all (fallback_diagnostics entries s) st1 else st1 in
    match entries with
    | [] => Fail 1 "find_location_driver()"
    | d0 :: _ => Ret (set_location_driver (Some d0) st2)
    end.
Proof.
  intros Hmiss. unfold find_location_driver, driver_find_index.
  rewrite (find_index_from_miss _ _ 0 Hmiss).
  replace (0 <=? -1) with false by reflexivity.
  assert (H0 : location_driver_find_handle entries 0 = Ret (hd_error entries)).
  { destruct entries as [ | d0 rest ] eqn:E; [ reflexivity | ].
    apply (find_handle_populated (d0 :: rest) 0 d0). reflexivity. }
  destruct (verbosity_is_enabled c).
  - rewrite log_available_all. cbn [bind]. rewrite H0. cbn [bind].
    rewrite !emit_as_emit_all, !emit_all_app.
    destruct entries; reflexivity.
  - cbn [bind]. rewrite H0. cbn [bind]. destruct entries; reflexivity.
Qed.

(** Whenever selection returns, it has bound an entry of the registry and
    has left everything but [location_driver] and the trace alone. *)
Lemma find_location_driver_ret (c : ctx world) (st st1 : state world) :
  find_location_driver entries c st = Ret st1 ->
  exists (d : location_driver_t world) (es : list event),
    In d entries
    /\ Forall (fun e => is_diagnostic e = true) es
    /\ st1 = set_location_driver (Some d)
               (emit_all (ev_driver_ctl_find_index "location_driver"
                            (location_driver_name (settings c)) :: es) st).
Proof.
  intros Hret.
  destruct (in_dec string_dec (location_driver_name (settings c)) (map ident entries))
    as [Hin | Hmiss].
  - destruct (find_location_driver_hit c st Hin) as (k & d & Hk & _ & _ & Hrun).
    rewrite Hrun in Hret. inversion Hret; subst st1.
    exists d, []. repeat split; [ eapply nth_error_In; exact Hk | constructor ].
  - rewrite (find_location_driver_miss c st Hmiss) in Hret. cbv zeta in Hret.
    destruct entries as [ | d0 rest ] eqn:E; [ discriminate | ].
    inversion Hret; subst st1. rewrite emit_as_emit_all.
    destruct (verbosity_is_enabled c).
    + exists d0, (fallback_diagnostics (d0 :: rest) (location_driver_name (settings c))).
      repeat split; [ left; reflexivity | | rewrite emit_all_app; reflexivity ].
      unfold fallback_diagnostics.
      repeat (apply Forall_cons; [ reflexivity | ]).
      apply Forall_app. split.
      * apply Forall_forall. intros e He. apply in_map_iff in He.
        destruct He as (d & <- & _). reflexivity.
      * repeat constructor.
    + exists d0, []. repeat split; [ left; reflexivity | constructor ].
Qed.

(** The only way out of selection other than a return is the abort on an
    empty registry. *)
Lemma find_location_driver_fail (c : ctx world) (st : state world)
    (code : Z) (tag : string) :
  find_location_driver entries c st = Fail code tag ->
  entries = [] /\ code = 1 /\ tag = "find_location_driver()".
Proof.
  intros Hfail.
  destruct (in_dec string_dec (location_driver_name (settings c)) (map ident entries))
    as [Hin | Hmiss].
  - destruct (find_location_driver_hit c st Hin) as (k & d & _ & _ & _ & Hrun).
    rewrite Hrun in Hfail. discriminate.
  - rewrite (find_location_driver_miss c st Hmiss) in Hfail. cbv zeta in Hfail.
    destruct entries; [ | discriminate ].
    inversion Hfail. repeat split.
Qed.

(** C4, as amended. A configured name that equals some registry ident
    binds the first entry carrying it; an unknown name on a non-empty
    registry binds entry 0, and the diagnostic (which lists every ident) is
    logged only when verbosity is enabled; an empty registry aborts with
    code 1 and the tag of the initializer; no public call aborts in any
    other way. *)
Theorem find_location_driver_resolves (c : ctx world) (st : state world) :
  let s := location_driver_name (settings c) in
  let st1 := emit (ev_driver_ctl_find_index "location_driver" s) st in
  (In s (map ident entries) ->
   exists (k : nat) (d : location_driver_t world),
     nth_error entries k = Some d
     /\ ident d = s
     /\ (forall j d', (j < k)%nat -> nth_error entries j = Some d' -> ident d' <> s)
     /\ find_location_driver entries c st = Ret (set_location_driver (Some d) st1))
  /\ (forall d0 rest, entries = d0 :: rest -> ~ In s (map ident entries) ->
      find_location_driver entries c st
      = Ret (set_location_driver (Some d0)
               (if verbosity_is_enabled c
                then emit_all (fallback_diagnostics entries s) st1
                else st1)))
  /\ (entries = [] ->
      find_location_driver entries c st = Fail 1 "find_location_driver()")
  /\ (forall o code tag, exec entries c o st = Fail code tag ->
      o = op_init /\ entries = [] /\ code = 1 /\ tag = "find_location_driver()")
  /\ (forall code tag, find_location_driver entries c st = Fail code tag ->
      entries = [] /\ code = 1 /\ tag = "find_location_driver()").
Proof.
  intros s st1. split; [ | split; [ | split; [ | split ] ] ].
  - intros Hin. exact (find_location_driver_hit c st Hin).
  - intros d0 rest E Hmiss.
    rewrite (find_location_driver_miss c st Hmiss). cbv zeta.
    fold s. fold st1. rewrite E. reflexivity.
  - intros E.
    rewrite (find_location_driver_miss c st); [ rewrite E; reflexivity | ].
    rewrite E. intros [].
  - intros o code tag Hfail.
    destruct o; simpl in Hfail; try discriminate.
    split; [ reflexivity | ].
    unfold init_location in Hfail.
    destruct (location_data st); [ discriminate | ].
    destruct (find_location_driver entries c st) as [ st2 | code' tag' | | ] eqn:Hsel;
      simpl in Hfail; try discriminate.
    + destruct (location_driver st2) as [ drv | ]; [ | discriminate ].
      destruct (init drv) as [ f | ]; [ | discriminate ].
      destruct (f (the_world st2)) as [ data w ].
      destruct (initialized (location_cb c)); discriminate.
    + inversion Hfail; subst code' tag'.
      exact (find_location_driver_fail c st code tag Hsel).
  - intros code tag Hfail. exact (find_location_driver_fail c st code tag Hfail).
Qed.

End Selection.

(** C4, as stated, fails: with verbosity off, an unknown name falls back
    to entry 0 and nothing at all is logged. *)
Lemma fallback_without_diagnostic :
  ~ In "gps" (map ident sample_entries)
  /\ exists st' : state nat,
       find_location_driver sample_entries (sample_ctx "gps" true false)
         (initial_state 0%nat) = Ret st'
       /\ location_driver st' = Some sample_sensor
       /\ filter is_diagnostic (trace st') = [].
Proof.
  split.
  - simpl. intros [ H | [ H | [] ] ]; discriminate.
  - eexists. split; [ reflexivity | split; reflexivity ].
Qed.

Lemma find_location_driver_resolves_witness :
  (exists d : location_driver_t nat,
     ident d = "null"
     /\ find_location_driver sample_entries (sample_ctx "null" true true)
          (initial_state 0%nat)
        = Ret (set_location_driver (Some d)
                 (emit (ev_driver_ctl_find_index "location_driver" "null")
                    (initial_state 0%nat))))
  /\ find_location_driver sample_entries (sample_ctx "gps" true true)
       (initial_state 0%nat)
     = Ret (set_location_driver (Some sample_sensor)
              (emit_all (fallback_diagnostics sample_entries "gps")
                 (emit (ev_driver_ctl_find_index "location_driver" "gps")
                    (initial_state 0%nat))))
  /\ find_location_driver (@nil (location_driver_t nat)) (sample_ctx "gps" true true)
       (initial_state 0%nat)
     = Fail 1 "find_location_driver()".
Proof.
  split; [ | split ].
  - destruct (find_location_driver_resolves sample_entries
                (sample_ctx "null" true true) (initial_state 0%nat))
      as [Hhit _].
    destruct Hhit as (k & d & _ & Hid & _ & Hrun).
    + simpl. right. left. reflexivity.
    + exists d. split; [ exact Hid | exact Hrun ].
  - destruct (find_location_driver_resolves sample_entries
                (sample_ctx "gps" true true) (initial_state 0%nat))
      as [_ [Hmiss _]].
    apply (Hmiss sample_sensor [sample_null]); [ reflexivity | ].
    simpl. intros [ H | [ H | [] ] ]; discriminate.
  - destruct (find_location_driver_resolves (@nil (location_driver_t nat))
                (sample_ctx "gps" true true) (initial_state 0%nat))
      as [_ [_ [Hempty _]]].
    apply Hempty. reflexivity.
Defined.

Section Control.

Context {world : Type}.

(** C9. [SET_ACTIVE] followed by [IS_ACTIVE] answers true whatever the
    flags were; [DESTROY] then clears both flags and [location_driver]
    while [location_data], the world and the trace stay as they are (nothing
    is freed); every opcode other than the two queries returns true; the
    queries return their flag and change nothing. *)
Theorem location_driver_ctl_flags (c : ctx world) (st : state world) :
  (let st1 := snd (location_driver_ctl c RARCH_LOCATION_CTL_SET_ACTIVE st) in
   fst (location_driver_ctl c RARCH_LOCATION_CTL_IS_ACTIVE st1) = true
   /\ let st2 := snd (location_driver_ctl c RARCH_LOCATION_CTL_DESTROY st1) in
      fst (location_driver_ctl c RARCH_LOCATION_CTL_IS_ACTIVE st2) = false
      /\ fst (location_driver_ctl c RARCH_LOCATION_CTL_OWNS_DRIVER st2) = false)
  /\ (let st' := snd (location_driver_ctl c RARCH_LOCATION_CTL_DESTROY st) in
      location_driver_active st' = false
      /\ location_driver_data_own st' = false
      /\ location_driver st' = None
      /\ location_data st' = location_data st
      /\ the_world st' = the_world st
      /\ trace st' = trace st)
  /\ (forall o,
        o <> RARCH_LOCATION_CTL_OWNS_DRIVER ->
        o <> RARCH_LOCATION_CTL_IS_ACTIVE ->
        fst (location_driver_ctl c o st) = true)
  /\ location_driver_ctl c RARCH_LOCATION_CTL_OWNS_DRIVER st
     = (location_driver_data_own st, st)
  /\ location_driver_ctl c RARCH_LOCATION_CTL_IS_ACTIVE st
     = (location_driver_active st, st).
Proof.
  repeat split.
  intros o Howns Hactive. destruct o; try reflexivity; contradiction.
Qed.

(** Tear-down never touches [location_driver] or the flags. *)
Lemma uninit_location_frame (c : ctx world) (st : state world) :
  location_data (uninit_location c st) = None
  /\ location_driver (uninit_location c st) = location_driver st
  /\ location_driver_active (uninit_location c st) = location_driver_active st
  /\ location_driver_data_own (uninit_location c st) = location_driver_data_own st.
Proof.
  unfold uninit_location.
  destruct (location_data st) as [ data | ]; [ | repeat split ].
  destruct (location_driver st) as [ drv | ] eqn:Hdrv; [ | repeat split; auto ].
  destruct (deinitialized (location_cb c)); destruct (free drv);
    repeat split; simpl; auto.
Qed.

Lemma uninit_location_unbound (c : ctx world) (st : state world) :
  location_data st = None \/ location_driver st = None ->
  uninit_location c st = set_location_data None st.
Proof.
  unfold uninit_location.
  intros [ H | H ]; rewrite H; [ reflexivity | ].
  destruct (location_data st); reflexivity.
Qed.

Lemma set_location_data_same (st : state world) :
  set_location_data (location_data st) st = st.
Proof. destruct st. reflexivity. Qed.

(** C7. After [RARCH_LOCATION_CTL_DEINIT] the instance handle is NULL in
    every case; [location_driver] and the two flags are what they were;
    when no instance or no descriptor was bound, no hook and no [free] run
    (world and trace unchanged), and with no instance the whole state is
    unchanged. *)
Theorem uninit_location_clears (c : ctx world) (st : state world) :
  let st' := snd (location_driver_ctl c RARCH_LOCATION_CTL_DEINIT st) in
  st' = uninit_location c st
  /\ location_data st' = None
  /\ location_driver st' = location_driver st
  /\ location_driver_active st' = location_driver_active st
  /\ location_driver_data_own st' = location_driver_data_own st
  /\ (location_data st = None \/ location_driver st = None ->
      the_world st' = the_world st /\ trace st' = trace st)
  /\ (location_data st = None -> st' = st).
Proof.
  cbv zeta. cbn [snd location_driver_ctl].
  destruct (uninit_location_frame c st) as (Hdata & Hdrv & Hact & Hown).
  repeat split; try assumption.
  - rewrite (uninit_location_unbound c st H). reflexivity.
  - rewrite (uninit_location_unbound c st H). reflexivity.
  - intros Hnone. rewrite (uninit_location_unbound c st (or_introl Hnone)).
    rewrite <- Hnone. apply set_location_data_same.
Qed.

End Control.

Lemma uninit_location_clears_witness :
  let c := sample_ctx "null" true false in
  snd (location_driver_ctl c RARCH_LOCATION_CTL_DEINIT (initial_state 0%nat))
  = initial_state 0%nat
  /\ location_data (snd (location_driver_ctl c RARCH_LOCATION_CTL_DEINIT sample_bound))
     = None.
Proof.
  intros c.
  destruct (uninit_location_clears c (initial_state 0%nat))
    as (_ & _ & _ & _ & _ & _ & Hsame).
  destruct (uninit_location_clears c sample_bound) as (_ & Hclear & _).
  split; [ apply Hsame; reflexivity | exact Hclear ].
Defined.

Lemma location_driver_ctl_flags_witness :
  fst (location_driver_ctl (sample_ctx "null" true false)
         (RARCH_LOCATION_CTL_other 42) sample_bound) = true
  /\ fst (location_driver_ctl (sample_ctx "null" true false)
            RARCH_LOCATION_CTL_DEINIT sample_bound) = true.
Proof.
  destruct (location_driver_ctl_flags (sample_ctx "null" true false) sample_bound)
    as (_ & _ & Hmut & _).
  split; apply Hmut; discriminate.
Defined.

Section Forwarders.

Context {world : Type}.

Lemma count_app (p : event -> bool) (tr es : list event) :
  count p (tr ++ es) = (count p tr + count p es)%nat.
Proof. unfold count. rewrite filter_app, length_app. reflexivity. Qed.

(** C5. With an instance bound and a descriptor that has a [start] slot:
    when [location_allow] is off the call returns false and pushes exactly
    one message (priority 1, 180 ticks, default icon, info category); when
    it is on the call returns what the driver's [start] returns and pushes
    nothing. With no instance, no descriptor or no [start] slot it returns
    false and leaves the state, trace included, untouched. *)
Theorem driver_location_start_gate (c : ctx world) (st : state world) :
  (forall drv data f,
     location_driver st = Some drv -> location_data st = Some data ->
     start drv = Some f ->
     (location_allow (settings c) = false ->
      driver_location_start c st
      = (false,
         emit (ev_runloop_msg_queue_push ("Location is explicitly disabled." ++ nl)
                 1 180 true None MESSAGE_QUEUE_ICON_DEFAULT
                 MESSAGE_QUEUE_CATEGORY_INFO) st)
      /\ count is_notification (trace (snd (driver_location_start c st)))
         = S (count is_notification (trace st)))
     /\ (location_allow (settings c) = true ->
         driver_location_start c st
         = (fst (f data (the_world st)),
            emit (ev_start (ident drv) data (fst (f data (the_world st))))
              (set_world (snd (f data (the_world st))) st))
         /\ count is_notification (trace (snd (driver_location_start c st)))
            = count is_notification (trace st)))
  /\ (location_data st = None \/ location_driver st = None
      \/ (exists drv, location_driver st = Some drv /\ start drv = None) ->
      driver_location_start c st = (false, st)).
Proof.
  split.
  - intros drv data f Hdrv Hdata Hstart.
    unfold driver_location_start. rewrite Hdrv, Hdata, Hstart.
    split; intros Hallow; rewrite Hallow.
    + split; [ reflexivity | ].
      cbn [snd emit trace]. rewrite count_app. unfold count. simpl. lia.
    + destruct (f data (the_world st)) as [ r w ].
      split; [ reflexivity | ].
      cbn [snd emit trace fst]. rewrite count_app. unfold count. simpl. lia.
  - unfold driver_location_start.
    intros [ H | [ H | (drv & Hdrv & Hstart) ] ].
    + rewrite H. destruct (location_driver st); reflexivity.
    + rewrite H. reflexivity.
    + rewrite Hdrv, Hstart. destruct (location_data st); reflexivity.
Qed.

(** C3. When the descriptor, its [get_position] slot or the instance is
    missing, the call returns false with all four cells set to 0.0 and
    calls nothing; otherwise it returns the driver's own result and the
    cells are exactly as the driver left them. *)
Theorem driver_location_get_position_contract (out : position) (st : state world) :
  (location_driver st = None
   \/ (exists drv, location_driver st = Some drv /\ get_position drv = None)
   \/ location_data st = None ->
   driver_location_get_position out st = (false, zero_position, st)
   /\ lat zero_position = double_zero /\ lon zero_position = double_zero
   /\ horiz_accuracy zero_position = double_zero
   /\ vert_accuracy zero_position = double_zero)
  /\ (forall drv data f,
        location_driver st = Some drv -> get_position drv = Some f ->
        location_data st = Some data ->
        fst (driver_location_get_position out st)
        = fst (f data out (the_world st))
        /\ the_world (snd (driver_location_get_position out st))
           = snd (f data out (the_world st))
        /\ trace (snd (driver_location_get_position out st))
           = trace st
               ++ [ev_get_position (ident drv) data
                     (fst (fst (f data out (the_world st))))]).
Proof.
  split.
  - intros Hguard. split; [ | repeat split ].
    unfold driver_location_get_position.
    destruct Hguard as [ H | [ (drv & Hdrv & Hslot) | H ] ].
    + rewrite H. reflexivity.
    + rewrite Hdrv, Hslot. destruct (location_data st); reflexivity.
    + rewrite H. destruct (location_driver st); reflexivity.
  - intros drv data f Hdrv Hslot Hdata.
    unfold driver_location_get_position. rewrite Hdrv, Hdata, Hslot.
    destruct (f data out (the_world st)) as [ [ r out' ] w ].
    repeat split.
Qed.

Lemma forwarders_keep_binding (c : ctx world) (st : state world) :
  (location_driver (snd (driver_location_start c st)) = location_driver st
   /\ location_data (snd (driver_location_start c st)) = location_data st)
  /\ (location_driver (driver_location_stop st) = location_driver st
      /\ location_data (driver_location_stop st) = location_data st)
  /\ (forall ms dist,
        location_driver (driver_location_set_interval ms dist st) = location_driver st
        /\ location_data (driver_location_set_interval ms dist st) = location_data st)
  /\ (forall out,
        location_driver (snd (driver_location_get_position out st)) = location_driver st
        /\ location_data (snd (driver_location_get_position out st)) = location_data st).
Proof.
  unfold driver_location_start, driver_location_stop,
    driver_location_set_interval, driver_location_get_position.
  destruct (location_driver st) as [ drv | ] eqn:Hdrv;
    destruct (location_data st) as [ data | ] eqn:Hdata;
    repeat split; intros;
    repeat match goal with
           | |- context [match ?x with _ => _ end] => destruct x
           end;
    simpl; assumption.
Qed.

End Forwarders.

Lemma driver_location_start_gate_witness :
  fst (driver_location_start (sample_ctx "null" false false) sample_bound) = false
  /\ driver_location_start (sample_ctx "null" true false) sample_bound
     = (true, emit (ev_start "null" 1%positive true) (set_world 102%nat sample_bound))
  /\ driver_location_start (sample_ctx "null" true false) (initial_state 0%nat)
     = (false, initial_state 0%nat).
Proof.
  destruct (driver_location_start_gate (sample_ctx "null" false false) sample_bound)
    as [Hoff _].
  destruct (driver_location_start_gate (sample_ctx "null" true false) sample_bound)
    as [Hon _].
  destruct (driver_location_start_gate (sample_ctx "null" true false)
              (initial_state 0%nat)) as [_ Hsilent].
  destruct (Hoff sample_null 1%positive (fun _ w => (true, S w)))
    as [Hdeny _]; try reflexivity.
  destruct (Hon sample_null 1%positive (fun _ w => (true, S w)))
    as [_ Hallow]; try reflexivity.
  destruct Hdeny as [Hdeny _]; [ reflexivity | ].
  destruct Hallow as [Hallow _]; [ reflexivity | ].
  split; [ rewrite Hdeny; reflexivity | ].
  split; [ exact Hallow | apply Hsilent; left; reflexivity ].
Defined.

Lemma driver_location_get_position_contract_witness :
  driver_location_get_position sample_position (initial_state 0%nat)
  = (false, zero_position, initial_state 0%nat)
  /\ fst (driver_location_get_position sample_position sample_bound)
     = (true, zero_position).
Proof.
  destruct (driver_location_get_position_contract sample_position
              (initial_state 0%nat)) as [Hguard _].
  destruct (driver_location_get_position_contract sample_position sample_bound)
    as [_ Hpass].
  destruct Hguard as [Hzero _]; [ left; reflexivity | ].
  destruct (Hpass sample_null 1%positive (fun _ _ w => (true, zero_position, S w)))
    as [Hres _]; try reflexivity.
  split; [ exact Hzero | exact Hres ].
Defined.

Section Lifecycle.

Context {world : Type}.
Variable entries : list (location_driver_t world).

Lemma filter_none (p q : event -> bool) (es : list event) :
  (forall e, q e = true -> p e = false) ->
  Forall (fun e => q e = true) es -> filter p es = [].
Proof.
  intros Hpq Hes. induction Hes as [ | e es He _ IH ]; [ reflexivity | ].
  simpl. rewrite (Hpq e He). exact IH.
Qed.

(** What a call of [init_location] does once it is past the guard and
    selection has returned a descriptor with an [init] slot. *)
Lemma init_location_run (c : ctx world) (st st1 : state world)
    (drv : location_driver_t world) (f : world -> option handle * world) :
  location_data st = None ->
  find_location_driver entries c st = Ret st1 ->
  location_driver st1 = Some drv ->
  init drv = Some f ->
  exists st' : state world,
    init_location entries c st = Ret st'
    /\ location_driver st' = Some drv
    /\ location_data st' = fst (f (the_world st1))
    /\ location_driver_active st'
       = match fst (f (the_world st1)) with
         | Some _ => location_driver_active st1
         | None => false
         end
    /\ location_driver_data_own st' = location_driver_data_own st1
    /\ the_world st'
       = match initialized (location_cb c) with
         | Some cb => cb (snd (f (the_world st1)))
         | None => snd (f (the_world st1))
         end
    /\ trace st'
       = trace st1
           ++ [ev_init (ident drv) (fst (f (the_world st1)))]
           ++ match fst (f (the_world st1)) with
              | Some _ => []
              | None => [ev_RARCH_ERR ("Failed to initialize location driver. "
                                         ++ "Will continue without location." ++ nl)]
              end
           ++ match initialized (location_cb c) with
              | Some _ => [ev_cb_initialized]
              | None => []
              end.
Proof.
  intros Hnone Hsel Hdrv Hinit.
  unfold init_location. rewrite Hnone, Hsel. cbn [bind]. rewrite Hdrv, Hinit.
  destruct (f (the_world st1)) as [ data w ]. cbn [fst snd].
  destruct data as [ h | ]; destruct (initialized (location_cb c)) as [ cb | ];
    eexists; (split; [ reflexivity | ]); simpl;
    rewrite <- ?app_assoc; simpl; rewrite ?app_nil_r; repeat split; assumption.
Qed.

(** A call of [init_location] that gets past the guard and returns has gone
    through selection and through the driver's [init]. *)
Lemma init_location_ret (c : ctx world) (st st' : state world) :
  location_data st = None ->
  init_location entries c st = Ret st' ->
  exists st1 drv f,
    find_location_driver entries c st = Ret st1
    /\ location_driver st1 = Some drv
    /\ init drv = Some f.
Proof.
  intros Hnone Hret. unfold init_location in Hret. rewrite Hnone in Hret.
  destruct (find_location_driver entries c st) as [ st1 | | | ] eqn:Hsel;
    try discriminate.
  cbn [bind] in Hret.
  destruct (location_driver st1) as [ drv | ] eqn:Hdrv; [ | discriminate ].
  destruct (init drv) as [ f | ] eqn:Hinit; [ | discriminate ].
  exists st1, drv, f. repeat split; assumption.
Qed.

Lemma init_location_bound (c : ctx world) (st : state world) (h : handle) :
  location_data st = Some h -> init_location entries c st = Ret st.
Proof. intros H. unfold init_location. rewrite H. reflexivity. Qed.

(** C2. With an instance bound, [init_location] returns the state it was
    given: nothing is selected, no driver [init] and no hook is called (the
    trace and the world are the same), and handle, descriptor and flags
    stay. So a second call right after a call that bound an instance
    changes nothing, and the two calls together made one driver [init]
    call, which handed out the one handle that is bound. *)
Theorem init_location_idempotent (c c0 : ctx world) (st : state world) (h : handle) :
  location_data st = Some h ->
  init_location entries c st = Ret st
  /\ (forall st0,
        init_location entries c0 st0 = Ret st ->
        run entries [(c0, op_init); (c, op_init)] st0 = Ret st
        /\ (location_data st0 = None ->
            count is_init_call (trace st) = S (count is_init_call (trace st0))
            /\ allocations (trace st) = S (allocations (trace st0)))).
Proof.
  intros Hbound.
  assert (Hnoop : init_location entries c st = Ret st)
    by exact (init_location_bound c st h Hbound).
  split; [ exact Hnoop | ].
  intros st0 Hfirst. split.
  - cbn [run exec bind]. rewrite Hfirst. cbn [bind]. rewrite Hnoop. reflexivity.
  - intros Hnone.
    destruct (init_location_ret c0 st0 st Hnone Hfirst) as (st1 & drv & f & Hsel & Hdrv & Hinit).
    destruct (init_location_run c0 st0 st1 drv f Hnone Hsel Hdrv Hinit)
      as (st' & Hrun & _ & Hdata & _ & _ & _ & Htrace).
    rewrite Hfirst in Hrun. inversion Hrun; subst st'.
    rewrite Hbound in Hdata.
    destruct (find_location_driver_ret entries c0 st0 st1 Hsel) as (d & es & _ & Hes & Hst1).
    assert (Htr1 : trace st1
                   = trace st0
                       ++ ev_driver_ctl_find_index "location_driver"
                            (location_driver_name (settings c0)) :: es)
      by (rewrite Hst1; reflexivity).
    rewrite Htrace, Htr1, <- Hdata.
    unfold allocations, count.
    rewrite !filter_app, !length_app. cbn [filter is_init_call is_allocation].
    rewrite (filter_none is_init_call is_diagnostic es),
            (filter_none is_allocation is_diagnostic es); try assumption.
    + destruct (initialized (location_cb c0)); simpl; lia.
    + intros [ ] He; try discriminate; reflexivity.
    + intros [ ] He; try discriminate; reflexivity.
Qed.

(** On a registry that is not empty, selection returns. *)
Lemma find_location_driver_total (c : ctx world) (st : state world) :
  entries <> [] -> exists st1, find_location_driver entries c st = Ret st1.
Proof.
  intros Hne.
  destruct (in_dec string_dec (location_driver_name (settings c)) (map ident entries))
    as [Hin | Hmiss].
  - destruct (find_location_driver_hit entries c st Hin) as (k & d & _ & _ & _ & Hrun).
    eexists. exact Hrun.
  - rewrite (find_location_driver_miss entries c st Hmiss). cbv zeta.
    destruct entries; [ contradiction | eexists; reflexivity ].
Qed.

(** C6. A call of [init_location] with no instance bound, on a registry
    that is not empty and whose drivers all have an [init] slot, returns.
    When the driver's [init] yields NULL, the active flag ends up false and
    no instance is bound. Whether it yields NULL or not, the [initialized]
    hook, when registered, runs exactly once, after the driver's [init]. *)
Theorem init_location_failure_and_hook (c : ctx world) (st : state world) :
  location_data st = None ->
  entries <> [] ->
  (forall d, In d entries -> init d <> None) ->
  exists st1 drv f st',
    find_location_driver entries c st = Ret st1
    /\ location_driver st1 = Some drv
    /\ init drv = Some f
    /\ init_location entries c st = Ret st'
    /\ location_data st' = fst (f (the_world st1))
    /\ (fst (f (the_world st1)) = None -> location_driver_active st' = false)
    /\ count is_hook_initialized (trace st')
       = (count is_hook_initialized (trace st)
          + match initialized (location_cb c) with Some _ => 1 | None => 0 end)%nat
    /\ the_world st'
       = match initialized (location_cb c) with
         | Some cb => cb (snd (f (the_world st1)))
         | None => snd (f (the_world st1))
         end.
Proof.
  intros Hnone Hne Hslots.
  destruct (find_location_driver_total c st Hne) as (st1 & Hsel).
  destruct (find_location_driver_ret entries c st st1 Hsel) as (d & es & Hin & Hes & Hst1).
  assert (Hdrv : location_driver st1 = Some d) by (rewrite Hst1; reflexivity).
  destruct (init d) as [ f | ] eqn:Hinit; [ | exfalso; exact (Hslots d Hin Hinit) ].
  destruct (init_location_run c st st1 d f Hnone Hsel Hdrv Hinit)
    as (st' & Hrun & _ & Hdata & Hactive & _ & Hworld & Htrace).
  exists st1, d, f, st'. repeat split; try assumption.
  - intros Hfail. rewrite Hactive, Hfail. reflexivity.
  - rewrite Htrace.
    assert (Htr1 : trace st1
                   = trace st
                       ++ ev_driver_ctl_find_index "location_driver"
                            (location_driver_name (settings c)) :: es)
      by (rewrite Hst1; reflexivity).
    rewrite Htr1. unfold count.
    rewrite !filter_app, !length_app. cbn [filter is_hook_initialized].
    rewrite (filter_none is_hook_initialized is_diagnostic es); try assumption.
    + destruct (fst (f (the_world st1))); destruct (initialized (location_cb c));
        simpl; lia.
    + intros [ ] He; try discriminate; reflexivity.
Qed.

(** One public call keeps the binding invariant, [DESTROY] being sent only
    with [location_data] NULL. *)
Lemma exec_keeps_binding_inv (c : ctx world) (o : op) (st st' : state world) :
  binding_inv st ->
  (o = op_ctl RARCH_LOCATION_CTL_DESTROY -> location_data st = None) ->
  exec entries c o st = Ret st' ->
  binding_inv st'.
Proof.
  intros Hinv Hguard Hexec.
  destruct (forwarders_keep_binding c st) as (Hstart & Hstop & Hival & Hpos).
  destruct o as [ | o | | | ms dist | out ]; cbn [exec] in Hexec.
  - destruct (location_data st) as [ h | ] eqn:Hdata.
    + rewrite (init_location_bound c st h Hdata) in Hexec.
      inversion Hexec; subst st'. exact Hinv.
    + destruct (init_location_ret c st st' Hdata Hexec)
        as (st1 & drv & f & Hsel & Hdrv & Hinit).
      destruct (init_location_run c st st1 drv f Hdata Hsel Hdrv Hinit)
        as (st2 & Hrun & Hbound & _).
      rewrite Hexec in Hrun. inversion Hrun; subst st2.
      intros _. rewrite Hbound. discriminate.
  - inversion Hexec; subst st'. clear Hexec.
    destruct o; try exact Hinv.
    + intros Hdata. exfalso. apply Hdata.
      cbn [snd location_driver_ctl]. apply Hguard. reflexivity.
    + intros Hdata. exfalso. apply Hdata.
      cbn [snd location_driver_ctl]. apply uninit_location_frame.
  - inversion Hexec; subst st'. destruct Hstart as [Hd Hh].
    unfold binding_inv. rewrite Hd, Hh. exact Hinv.
  - inversion Hexec; subst st'. destruct Hstop as [Hd Hh].
    unfold binding_inv. rewrite Hd, Hh. exact Hinv.
  - inversion Hexec; subst st'. destruct (Hival ms dist) as [Hd Hh].
    unfold binding_inv. rewrite Hd, Hh. exact Hinv.
  - inversion Hexec; subst st'. destruct (Hpos out) as [Hd Hh].
    unfold binding_inv. rewrite Hd, Hh. exact Hinv.
Qed.

(** C1, as amended. Every state reached from the zeroed statics by public
    calls, [DESTROY] being sent only while no instance is bound, has a
    descriptor whenever it has an instance. [DESTROY] itself clears the
    descriptor and leaves the instance handle as it is, so it keeps the
    invariant exactly when no instance is bound. *)
Theorem binding_inv_reachable :
  (forall st, reachable entries st -> binding_inv st)
  /\ (forall (c : ctx world) (st : state world),
        let st' := snd (location_driver_ctl c RARCH_LOCATION_CTL_DESTROY st) in
        location_driver st' = None
        /\ location_data st' = location_data st
        /\ (binding_inv st' <-> location_data st = None)).
Proof.
  split.
  - intros st Hreach.
    induction Hreach as [ w | c o st st' _ IH Hguard Hexec ].
    + intros Hdata. exfalso. apply Hdata. reflexivity.
    + exact (exec_keeps_binding_inv c o st st' IH Hguard Hexec).
  - intros c st. cbv zeta. cbn [snd location_driver_ctl].
    repeat split.
    + intros Hinv. unfold binding_inv in Hinv. simpl in Hinv.
      destruct (location_data st) as [ h | ]; [ | reflexivity ].
      exfalso. apply Hinv; [ discriminate | reflexivity ].
    + intros Hnone Hdata. exfalso. apply Hdata. simpl. exact Hnone.
Qed.

(** C10. Once [DESTROY] has been sent with an instance bound, the
    descriptor is gone and the handle is still there; a [DEINIT] sent then
    clears the handle and calls neither [free] nor the [deinitialized] hook
    (world and trace are the same), and an [init_location] called then
    (instead) returns the state it was given. *)
Theorem destroy_then_deinit (c c1 c2 : ctx world) (st : state world) (h : handle) :
  location_data st = Some h ->
  let sd := snd (location_driver_ctl c RARCH_LOCATION_CTL_DESTROY st) in
  location_driver sd = None
  /\ location_data sd = Some h
  /\ (let st' := snd (location_driver_ctl c1 RARCH_LOCATION_CTL_DEINIT sd) in
      st' = set_location_data None sd
      /\ location_data st' = None
      /\ the_world st' = the_world st
      /\ trace st' = trace st)
  /\ init_location entries c2 sd = Ret sd.
Proof.
  intros Hbound. cbv zeta. cbn [snd location_driver_ctl].
  assert (Hunbound : forall sd : state world,
            location_driver sd = None ->
            uninit_location c1 sd = set_location_data None sd)
    by (intros sd Hd; apply uninit_location_unbound; right; exact Hd).
  rewrite Hunbound by reflexivity.
  repeat split.
  - simpl. exact Hbound.
  - apply (init_location_bound c2 _ h). simpl. exact Hbound.
Qed.

End Lifecycle.

(** C1, as stated, fails: [init_location] on the sample registry binds an
    instance, and [DESTROY] then leaves that handle in place with no
    descriptor. *)
Lemma destroy_leaves_instance_without_descriptor :
  exists st : state nat,
    run sample_entries
      [(sample_ctx "null" true false, op_init);
       (sample_ctx "null" true false, op_ctl RARCH_LOCATION_CTL_DESTROY)]
      (initial_state 0%nat) = Ret st
    /\ location_data st = Some 1%positive
    /\ location_driver st = None
    /\ ~ binding_inv st.
Proof.
  eexists. split; [ reflexivity | ].
  split; [ reflexivity | ]. split; [ reflexivity | ].
  intros Hinv. apply Hinv; [ discriminate | reflexivity ].
Qed.

Lemma binding_inv_reachable_witness :
  binding_inv
    (driver_location_stop
       (snd (location_driver_ctl (sample_ctx "null" true false)
               RARCH_LOCATION_CTL_SET_ACTIVE sample_bound))).
Proof.
  apply (proj1 (binding_inv_reachable sample_entries)).
  apply (reachable_step sample_entries (sample_ctx "null" true false) op_stop
           (snd (location_driver_ctl (sample_ctx "null" true false)
                   RARCH_LOCATION_CTL_SET_ACTIVE sample_bound)));
    [ | discriminate | reflexivity ].
  apply (reachable_step sample_entries (sample_ctx "null" true false)
           (op_ctl RARCH_LOCATION_CTL_SET_ACTIVE) sample_bound);
    [ | discriminate | reflexivity ].
  apply (reachable_step sample_entries (sample_ctx "null" true false) op_init
           (initial_state 0%nat));
    [ apply reachable_initial | discriminate | reflexivity ].
Defined.

Lemma init_location_idempotent_witness :
  init_location sample_entries (sample_ctx "sensor" true true) sample_bound
  = Ret sample_bound
  /\ run sample_entries
       [(sample_ctx "null" true false, op_init);
        (sample_ctx "sensor" true true, op_init)] (initial_state 0%nat)
     = Ret sample_bound
  /\ allocations (trace sample_bound) = 1%nat.
Proof.
  destruct (init_location_idempotent sample_entries (sample_ctx "sensor" true true)
              (sample_ctx "null" true false) sample_bound 1%positive)
    as [Hnoop Htwice]; [ reflexivity | ].
  destruct (Htwice (initial_state 0%nat)) as [Hrun Hcount]; [ reflexivity | ].
  destruct Hcount as [_ Halloc]; [ reflexivity | ].
  split; [ exact Hnoop | ]. split; [ exact Hrun | exact Halloc ].
Defined.

Lemma init_location_failure_and_hook_witness :
  let c := sample_ctx "sensor" true false in
  let st := snd (location_driver_ctl c RARCH_LOCATION_CTL_SET_ACTIVE
                   (initial_state 0%nat)) in
  exists st1 drv f st',
    find_location_driver sample_entries c st = Ret st1
    /\ location_driver st1 = Some drv
    /\ init drv = Some f
    /\ init_location sample_entries c st = Ret st'
    /\ location_data st' = fst (f (the_world st1))
    /\ (fst (f (the_world st1)) = None -> location_driver_active st' = false)
    /\ count is_hook_initialized (trace st')
       = (count is_hook_initialized (trace st)
          + match initialized (location_cb c) with Some _ => 1 | None => 0 end)%nat
    /\ the_world st'
       = match initialized (location_cb c) with
         | Some cb => cb (snd (f (the_world st1)))
         | None => snd (f (the_world st1))
         end.
Proof.
  intros c st.
  apply (init_location_failure_and_hook sample_entries c st).
  - reflexivity.
  - discriminate.
  - intros d [ <- | [ <- | [] ] ]; discriminate.
Defined.

Lemma destroy_then_deinit_witness :
  let c := sample_ctx "null" true false in
  let sd := snd (location_driver_ctl c RARCH_LOCATION_CTL_DESTROY sample_bound) in
  location_driver sd = None
  /\ location_data sd = Some 1%positive
  /\ (let st' := snd (location_driver_ctl c RARCH_LOCATION_CTL_DEINIT sd) in
      st' = set_location_data None sd
      /\ location_data st' = None
      /\ the_world st' = the_world sample_bound
      /\ trace st' = trace sample_bound)
  /\ init_location sample_entries c sd = Ret sd.
Proof.
  intros c.
  apply (destroy_then_deinit sample_entries c c c sample_bound 1%positive).
  reflexivity.
Defined.

(** * Further properties of the forwarders and of tear-down *)

Section ForwardersFrame.

Context {world : Type}.

(** [driver_location_stop] calls the driver's [stop] once, with the bound
    handle, when descriptor, [stop] slot and instance are all there, and
    otherwise returns the state it was given. *)
Theorem driver_location_stop_forwards (st : state world) :
  (forall drv data f,
     location_driver st = Some drv -> stop drv = Some f ->
     location_data st = Some data ->
     driver_location_stop st
     = emit (ev_stop (ident drv) data) (set_world (f data (the_world st)) st))
  /\ (location_driver st = None
      \/ (exists drv, location_driver st = Some drv /\ stop drv = None)
      \/ location_data st = None ->
      driver_location_stop st = st).
Proof.
  unfold driver_location_stop. split.
  - intros drv data f Hdrv Hslot Hdata. rewrite Hdrv, Hdata, Hslot. reflexivity.
  - intros [ H | [ (drv & Hdrv & Hslot) | H ] ].
    + rewrite H. reflexivity.
    + rewrite Hdrv, Hslot. destruct (location_data st); reflexivity.
    + rewrite H. destruct (location_driver st); reflexivity.
Qed.

(** [driver_location_set_interval] hands both intervals, in the order it
    got them, to the driver's [set_interval] with the bound handle when
    descriptor, slot and instance are all there, and otherwise returns the
    state it was given. *)
Theorem driver_location_set_interval_forwards (ms dist : Z) (st : state world) :
  (forall drv data f,
     location_driver st = Some drv -> set_interval drv = Some f ->
     location_data st = Some data ->
     driver_location_set_interval ms dist st
     = emit (ev_set_interval (ident drv) data ms dist)
         (set_world (f data ms dist (the_world st)) st))
  /\ (location_driver st = None
      \/ (exists drv, location_driver st = Some drv /\ set_interval drv = None)
      \/ location_data st = None ->
      driver_location_set_interval ms dist st = st).
Proof.
  unfold driver_location_set_interval. split.
  - intros drv data f Hdrv Hslot Hdata. rewrite Hdrv, Hdata, Hslot. reflexivity.
  - intros [ H | [ (drv & Hdrv & Hslot) | H ] ].
    + rewrite H. reflexivity.
    + rewrite Hdrv, Hslot. destruct (location_data st); reflexivity.
    + rewrite H. destruct (location_driver st); reflexivity.
Qed.

Lemma forwarders_keep_flags (c : ctx world) (st : state world) :
  (location_driver_active (snd (driver_location_start c st)) = location_driver_active st
   /\ location_driver_data_own (snd (driver_location_start c st))
      = location_driver_data_own st)
  /\ (location_driver_active (driver_location_stop st) = location_driver_active st
      /\ location_driver_data_own (driver_location_stop st)
         = location_driver_data_own st)
  /\ (forall ms dist,
        location_driver_active (driver_location_set_interval ms dist st)
        = location_driver_active st
        /\ location_driver_data_own (driver_location_set_interval ms dist st)
           = location_driver_data_own st)
  /\ (forall out,
        location_driver_active (snd (driver_location_get_position out st))
        = location_driver_active st
        /\ location_driver_data_own (snd (driver_location_get_position out st))
           = location_driver_data_own st).
Proof.
  unfold driver_location_start, driver_location_stop,
    driver_location_set_interval, driver_location_get_position.
  destruct (location_driver st) as [ drv | ];
    destruct (location_data st) as [ data | ];
    repeat split; intros;
    repeat match goal with
           | |- context [match ?x with _ => _ end] => destruct x
           end;
    reflexivity.
Qed.

(** No capability call changes [location_driver], [location_data] or
    either flag, whatever the driver does and whatever it returns. *)
Theorem forwarders_same_statics (c : ctx world) (st : state world) :
  same_statics st (snd (driver_location_start c st))
  /\ same_statics st (driver_location_stop st)
  /\ (forall ms dist, same_statics st (driver_location_set_interval ms dist st))
  /\ (forall out, same_statics st (snd (driver_location_get_position out st))).
Proof.
  destruct (forwarders_keep_binding c st) as (Bstart & Bstop & Bival & Bpos).
  destruct (forwarders_keep_flags c st) as (Fstart & Fstop & Fival & Fpos).
  unfold same_statics. repeat split;
    first [ apply Bstart | apply Bstop | apply Bival | apply Bpos
          | apply Fstart | apply Fstop | apply Fival | apply Fpos ].
Qed.

(** With the descriptor or the instance missing, no forwarder does
    anything. *)
Lemma forwarders_silent (c : ctx world) (st : state world) :
  location_driver st = None \/ location_data st = None ->
  driver_location_start c st = (false, st)
  /\ driver_location_stop st = st
  /\ (forall ms dist, driver_location_set_interval ms dist st = st)
  /\ (forall out, driver_location_get_position out st = (false, zero_position, st)).
Proof.
  unfold driver_location_start, driver_location_stop,
    driver_location_set_interval, driver_location_get_position.
  intros [ H | H ]; rewrite H; destruct (location_driver st); repeat split.
Qed.

(** After [RARCH_LOCATION_CTL_DEINIT], and after
    [RARCH_LOCATION_CTL_DESTROY] even with the handle still in place, every
    capability call is refused without reaching a driver: [start] returns
    false and pushes no message, [get_position] returns false with zeroed
    cells, [stop] and [set_interval] return at once. *)
Theorem forwarders_silent_after_teardown (c c' : ctx world)
    (o : rarch_location_ctl_state) (st : state world) :
  o = RARCH_LOCATION_CTL_DEINIT \/ o = RARCH_LOCATION_CTL_DESTROY ->
  let st' := snd (location_driver_ctl c o st) in
  driver_location_start c' st' = (false, st')
  /\ driver_location_stop st' = st'
  /\ (forall ms dist, driver_location_set_interval ms dist st' = st')
  /\ (forall out, driver_location_get_position out st' = (false, zero_position, st')).
Proof.
  intros Ho. cbv zeta. apply forwarders_silent.
  destruct Ho as [ -> | -> ]; cbn [snd location_driver_ctl].
  - right. apply uninit_location_frame.
  - left. reflexivity.
Qed.

(** A second tear-down right after a first one changes nothing: no hook
    runs again and no handle is freed twice. *)
Theorem uninit_location_idempotent (c c' : ctx world) (st : state world) :
  snd (location_driver_ctl c' RARCH_LOCATION_CTL_DEINIT
         (snd (location_driver_ctl c RARCH_LOCATION_CTL_DEINIT st)))
  = snd (location_driver_ctl c RARCH_LOCATION_CTL_DEINIT st).
Proof.
  cbn [snd location_driver_ctl].
  assert (Hnone : location_data (uninit_location c st) = None)
    by apply uninit_location_frame.
  rewrite (uninit_location_unbound c' _ (or_introl Hnone)).
  rewrite <- Hnone. apply set_location_data_same.
Qed.

(** What tear-down does to a bound state. *)
Lemma uninit_location_bound (c : ctx world) (st : state world)
    (drv : location_driver_t world) (data : handle) :
  location_driver st = Some drv -> location_data st = Some data ->
  trace (uninit_location c st) = trace st ++ teardown_calls c drv data
  /\ the_world (uninit_location c st)
     = match free drv with
       | Some f => f data
       | None => fun w => w
       end
         (match deinitialized (location_cb c) with
          | Some cb => cb (the_world st)
          | None => the_world st
          end).
Proof.
  intros Hdrv Hdata. unfold uninit_location, teardown_calls.
  rewrite Hdrv, Hdata.
  destruct (deinitialized (location_cb c)); destruct (free drv); simpl;
    rewrite <- ?app_assoc, ?app_nil_r; split; reflexivity.
Qed.

End ForwardersFrame.

Lemma driver_location_stop_forwards_witness :
  driver_location_stop sample_bound
  = emit (ev_stop "null" 1%positive) (set_world 102%nat sample_bound)
  /\ driver_location_stop (initial_state 0%nat) = initial_state 0%nat.
Proof.
  destruct (driver_location_stop_forwards sample_bound) as [Hfwd _].
  destruct (driver_location_stop_forwards (initial_state 0%nat)) as [_ Hskip].
  split.
  - apply (Hfwd sample_null 1%positive (fun _ w => S w)); reflexivity.
  - apply Hskip. left. reflexivity.
Defined.

Lemma driver_location_set_interval_forwards_witness :
  driver_location_set_interval 500 10 sample_bound
  = emit (ev_set_interval "null" 1%positive 500 10) (set_world 102%nat sample_bound)
  /\ driver_location_set_interval 500 10 (initial_state 0%nat) = initial_state 0%nat.
Proof.
  destruct (driver_location_set_interval_forwards 500 10 sample_bound) as [Hfwd _].
  destruct (driver_location_set_interval_forwards 500 10 (initial_state 0%nat))
    as [_ Hskip].
  split.
  - apply (Hfwd sample_null 1%positive (fun _ _ _ w => S w)); reflexivity.
  - apply Hskip. left. reflexivity.
Defined.

Lemma forwarders_silent_after_teardown_witness :
  let c := sample_ctx "null" true false in
  let st' := snd (location_driver_ctl c RARCH_LOCATION_CTL_DESTROY sample_bound) in
  driver_location_start c st' = (false, st')
  /\ driver_location_stop st' = st'
  /\ (forall ms dist, driver_location_set_interval ms dist st' = st')
  /\ (forall out, driver_location_get_position out st' = (false, zero_position, st')).
Proof.
  intros c.
  apply (forwarders_silent_after_teardown c c RARCH_LOCATION_CTL_DESTROY sample_bound).
  right. reflexivity.
Defined.

(** * Further properties of bring-up and of sequences of calls *)

Section LifecycleTraces.

Context {world : Type}.
Variable entries : list (location_driver_t world).

(** Everything a call of [init_location] that passes the guard and returns
    has done, read off the state it returns. *)
Lemma init_location_effect (c : ctx world) (st st' : state world) :
  location_data st = None ->
  init_location entries c st = Ret st' ->
  exists (drv : location_driver_t world) (es : list event),
    In drv entries
    /\ Forall (fun e => is_diagnostic e = true) es
    /\ location_driver st' = Some drv
    /\ location_driver_data_own st' = location_driver_data_own st
    /\ location_driver_active st'
       = match location_data st' with
         | Some _ => location_driver_active st
         | None => false
         end
    /\ trace st'
       = trace st
           ++ (ev_driver_ctl_find_index "location_driver"
                 (location_driver_name (settings c)) :: es)
           ++ [ev_init (ident drv) (location_data st')]
           ++ match location_data st' with
              | Some _ => []
              | None => [ev_RARCH_ERR ("Failed to initialize location driver. "
                                         ++ "Will continue without location." ++ nl)]
              end
           ++ match initialized (location_cb c) with
              | Some _ => [ev_cb_initialized]
              | None => []
              end.
Proof.
  intros Hnone Hexec.
  destruct (init_location_ret entries c st st' Hnone Hexec)
    as (st1 & drv & f & Hsel & Hdrv & Hinit).
  destruct (init_location_run entries c st st1 drv f Hnone Hsel Hdrv Hinit)
    as (st2 & Hrun & Hbound & Hdata & Hactive & Hown & _ & Htrace).
  rewrite Hexec in Hrun. inversion Hrun; subst st2. clear Hrun.
  destruct (find_location_driver_ret entries c st st1 Hsel)
    as (d & es & Hin & Hes & Hst1).
  assert (Hd : d = drv) by (rewrite Hst1 in Hdrv; simpl in Hdrv; congruence).
  subst d.
  exists drv, es. rewrite Hdata.
  repeat split; try assumption.
  - rewrite Hown, Hst1. reflexivity.
  - rewrite Hactive, Hst1. reflexivity.
  - rewrite Htrace, Hst1. simpl. rewrite <- app_assoc. reflexivity.
Qed.

Lemma init_location_counts (c : ctx world) (st st' : state world) :
  location_data st = None ->
  init_location entries c st = Ret st' ->
  count is_selection (trace st') = S (count is_selection (trace st))
  /\ count is_init_call (trace st') = S (count is_init_call (trace st))
  /\ count is_free (trace st') = count is_free (trace st)
  /\ allocations (trace st') = (allocations (trace st) + bound_handles st')%nat.
Proof.
  intros Hnone Hexec.
  destruct (init_location_effect c st st' Hnone Hexec)
    as (drv & es & _ & Hes & _ & _ & _ & Htrace).
  rewrite Htrace. unfold allocations, count, bound_handles.
  rewrite !filter_app, !length_app.
  cbn [filter is_selection is_init_call is_free is_allocation].
  rewrite (filter_none is_selection is_diagnostic es),
          (filter_none is_init_call is_diagnostic es),
          (filter_none is_free is_diagnostic es),
          (filter_none is_allocation is_diagnostic es);
    try assumption; try (intros [ ] He; try discriminate; reflexivity).
  destruct (location_data st'); destruct (initialized (location_cb c));
    simpl; repeat split; lia.
Qed.

(** A call of [init_location] that finds no instance bound and returns has
    asked for the driver index once and called one driver's [init] once; it
    has handed out a handle exactly when it leaves one bound. A failed call
    does not latch: the next call selects and calls [init] again. *)
Theorem init_location_calls_once (c : ctx world) (st st' : state world) :
  location_data st = None ->
  init_location entries c st = Ret st' ->
  count is_selection (trace st') = S (count is_selection (trace st))
  /\ count is_init_call (trace st') = S (count is_init_call (trace st))
  /\ allocations (trace st') = (allocations (trace st) + bound_handles st')%nat
  /\ (forall c2 st2,
        location_data st' = None ->
        init_location entries c2 st' = Ret st2 ->
        count is_init_call (trace st2) = S (S (count is_init_call (trace st)))).
Proof.
  intros Hnone Hexec.
  destruct (init_location_counts c st st' Hnone Hexec) as (Hsel & Hcall & _ & Halloc).
  repeat split; try assumption.
  intros c2 st2 Hfailed Hagain.
  destruct (init_location_counts c2 st' st2 Hfailed Hagain) as (_ & Hcall2 & _).
  rewrite Hcall2, Hcall. reflexivity.
Qed.

(** The handle [init_location] binds is the one tear-down passes to the
    same driver's [free]: after a successful call, [DEINIT] runs the
    [deinitialized] hook (when registered), then that driver's [free] (when
    it has one) on that handle, and leaves no instance bound. *)
Theorem init_then_deinit_frees (c c' : ctx world) (st st1 : state world) (h : handle) :
  location_data st = None ->
  init_location entries c st = Ret st1 ->
  location_data st1 = Some h ->
  exists drv : location_driver_t world,
    In drv entries
    /\ location_driver st1 = Some drv
    /\ In (ev_init (ident drv) (Some h)) (trace st1)
    /\ let st2 := snd (location_driver_ctl c' RARCH_LOCATION_CTL_DEINIT st1) in
       location_data st2 = None
       /\ location_driver st2 = Some drv
       /\ trace st2 = trace st1 ++ teardown_calls c' drv h
       /\ the_world st2
          = match free drv with
            | Some f => f h
            | None => fun w => w
            end
              (match deinitialized (location_cb c') with
               | Some cb => cb (the_world st1)
               | None => the_world st1
               end).
Proof.
  intros Hnone Hexec Hbound.
  destruct (init_location_effect c st st1 Hnone Hexec)
    as (drv & es & Hin & _ & Hdrv & _ & _ & Htrace).
  exists drv. split; [ exact Hin | ]. split; [ exact Hdrv | ]. split.
  - rewrite Htrace, Hbound.
    apply in_or_app. right. apply in_or_app. right. left. reflexivity.
  - cbv zeta. cbn [snd location_driver_ctl].
    destruct (uninit_location_frame c' st1) as (Hdata & Hkeep & _).
    destruct (uninit_location_bound c' st1 drv h Hdrv Hbound) as (Htr & Hw).
    repeat split; try assumption. rewrite Hkeep. exact Hdrv.
Qed.

(** The flags after one public call, against the flags before it. *)
Lemma exec_flags (c : ctx world) (o : op) (st st' : state world) :
  exec entries c o st = Ret st' ->
  match o with
  | op_ctl RARCH_LOCATION_CTL_DESTROY =>
      location_driver_active st' = false /\ location_driver_data_own st' = false
  | op_ctl RARCH_LOCATION_CTL_SET_OWN_DRIVER =>
      location_driver_active st' = location_driver_active st
      /\ location_driver_data_own st' = true
  | op_ctl RARCH_LOCATION_CTL_UNSET_OWN_DRIVER =>
      location_driver_active st' = location_driver_active st
      /\ location_driver_data_own st' = false
  | op_ctl RARCH_LOCATION_CTL_SET_ACTIVE =>
      location_driver_active st' = true
      /\ location_driver_data_own st' = location_driver_data_own st
  | op_ctl RARCH_LOCATION_CTL_UNSET_ACTIVE =>
      location_driver_active st' = false
      /\ location_driver_data_own st' = location_driver_data_own st
  | op_init =>
      location_driver_data_own st' = location_driver_data_own st
      /\ (location_driver_active st' = location_driver_active st
          \/ (location_data st = None /\ location_data st' = None
              /\ location_driver_active st' = false))
  | _ =>
      location_driver_active st' = location_driver_active st
      /\ location_driver_data_own st' = location_driver_data_own st
  end.
Proof.
  intros Hexec.
  destruct (forwarders_keep_flags c st) as (Fstart & Fstop & Fival & Fpos).
  destruct o as [ | o | | | ms dist | out ]; cbn [exec] in Hexec.
  - destruct (location_data st) as [ h | ] eqn:Hdata.
    + rewrite (init_location_bound entries c st h Hdata) in Hexec.
      inversion Hexec; subst st'. split; [ reflexivity | left; reflexivity ].
    + destruct (init_location_effect c st st' Hdata Hexec)
        as (drv & es & _ & _ & _ & Hown & Hactive & _).
      split; [ exact Hown | ].
      destruct (location_data st'); [ left; exact Hactive | right ].
      repeat split. exact Hactive.
  - inversion Hexec; subst st'.
    destruct o; cbn [snd location_driver_ctl]; try (split; reflexivity).
    destruct (uninit_location_frame c st) as (_ & _ & Hact & Hown).
    split; assumption.
  - inversion Hexec; subst st'. exact Fstart.
  - inversion Hexec; subst st'. exact Fstop.
  - inversion Hexec; subst st'. exact (Fival ms dist).
  - inversion Hexec; subst st'. exact (Fpos out).
Qed.

(** [location_driver_data_own] changes only through [SET_OWN_DRIVER],
    [UNSET_OWN_DRIVER] and [DESTROY]: bring-up, tear-down, the other
    opcodes and the capability calls all leave it as it was. *)
Theorem data_own_kept (c : ctx world) (o : op) (st st' : state world) :
  exec entries c o st = Ret st' ->
  o <> op_ctl RARCH_LOCATION_CTL_SET_OWN_DRIVER ->
  o <> op_ctl RARCH_LOCATION_CTL_UNSET_OWN_DRIVER ->
  o <> op_ctl RARCH_LOCATION_CTL_DESTROY ->
  location_driver_data_own st' = location_driver_data_own st.
Proof.
  intros Hexec Hset Hunset Hdestroy.
  pose proof (exec_flags c o st st' Hexec) as H.
  destruct o as [ | [ | | | | | | | | v ] | | | ms dist | out ];
    try contradiction; apply H.
Qed.

(** Only [SET_ACTIVE] raises [location_driver_active]; it is lowered only by
    [UNSET_ACTIVE], by [DESTROY], and by a call of [init_location] in which
    the driver's [init] returned NULL. A successful [init_location] does not
    activate anything. *)
Theorem active_changes (c : ctx world) (o : op) (st st' : state world) :
  exec entries c o st = Ret st' ->
  (location_driver_active st' = true ->
   location_driver_active st = true \/ o = op_ctl RARCH_LOCATION_CTL_SET_ACTIVE)
  /\ (location_driver_active st' = false ->
      location_driver_active st = false
      \/ o = op_ctl RARCH_LOCATION_CTL_UNSET_ACTIVE
      \/ o = op_ctl RARCH_LOCATION_CTL_DESTROY
      \/ (o = op_init /\ location_data st = None /\ location_data st' = None)).
Proof.
  intros Hexec.
  pose proof (exec_flags c o st st' Hexec) as H.
  destruct o as [ | [ | | | | | | | | v ] | | | ms dist | out ];
    try (destruct H as [Hact _]; rewrite Hact; split; intros Hv;
         first [ left; exact Hv | discriminate | right; reflexivity
               | right; left; reflexivity | right; right; left; reflexivity ]).
  destruct H as [_ [ Hsame | (Hnone & Hnone' & Hoff) ] ].
  - rewrite Hsame. split; intros Hv; left; exact Hv.
  - rewrite Hoff. split; intros Hv; [ discriminate | ].
    right. right. right. repeat split; assumption.
Qed.

End LifecycleTraces.

Lemma init_location_calls_once_witness :
  count is_init_call (trace sample_bound) = 1%nat
  /\ allocations (trace sample_bound) = 1%nat.
Proof.
  destruct (init_location_calls_once sample_entries (sample_ctx "null" true false)
              (initial_state 0%nat) sample_bound)
    as (_ & Hcall & Halloc & _); [ reflexivity | reflexivity | ].
  split; [ exact Hcall | exact Halloc ].
Defined.

Lemma init_then_deinit_frees_witness :
  exists drv : location_driver_t nat,
    In drv sample_entries
    /\ location_driver sample_bound = Some drv
    /\ In (ev_init (ident drv) (Some 1%positive)) (trace sample_bound)
    /\ let st2 := snd (location_driver_ctl (sample_ctx "null" true false)
                         RARCH_LOCATION_CTL_DEINIT sample_bound) in
       location_data st2 = None
       /\ location_driver st2 = Some drv
       /\ trace st2
          = trace sample_bound
              ++ teardown_calls (sample_ctx "null" true false) drv 1%positive
       /\ the_world st2
          = match free drv with
            | Some f => f 1%positive
            | None => fun w => w
            end
              (match deinitialized (location_cb (sample_ctx "null" true false)) with
               | Some cb => cb (the_world sample_bound)
               | None => the_world sample_bound
               end).
Proof.
  apply (init_then_deinit_frees sample_entries (sample_ctx "null" true false)
           (sample_ctx "null" true false) (initial_state 0%nat) sample_bound
           1%positive); reflexivity.
Defined.

Lemma data_own_kept_witness :
  location_driver_data_own sample_bound = false.
Proof.
  apply (data_own_kept sample_entries (sample_ctx "null" true false) op_init
           (initial_state 0%nat) sample_bound);
    [ reflexivity | discriminate | discriminate | discriminate ].
Defined.

Lemma active_changes_witness :
  let c := sample_ctx "sensor" true false in
  let st := snd (location_driver_ctl c RARCH_LOCATION_CTL_SET_ACTIVE
                   (initial_state 0%nat)) in
  let st' := mk_state (Some sample_sensor) None false false 101%nat
               [ev_driver_ctl_find_index "location_driver" "sensor";
                ev_init "sensor" None;
                ev_RARCH_ERR ("Failed to initialize location driver. "
                                ++ "Will continue without location." ++ nl);
                ev_cb_initialized] in
  (location_driver_active st' = true ->
   location_driver_active st = true
   \/ op_init = op_ctl RARCH_LOCATION_CTL_SET_ACTIVE)
  /\ (location_driver_active st' = false ->
      location_driver_active st = false
      \/ op_init = op_ctl RARCH_LOCATION_CTL_UNSET_ACTIVE
      \/ op_init = op_ctl RARCH_LOCATION_CTL_DESTROY
      \/ (op_init = op_init /\ location_data st = None /\ location_data st' = None)).
Proof.
  intros c st st'.
  apply (active_changes sample_entries c op_init st st').
  reflexivity.
Defined.

(** * The enumeration loop and invariants of runs *)

Section Runs.

Context {world : Type}.
Variable entries : list (location_driver_t world).

(** The loop that lists the available drivers stops at the closing NULL:
    given more iterations than there are entries it returns, having read
    [location_drivers] only inside its extent and logged one line per
    registered ident, in registry order. *)
Theorem log_available_enumerates (fuel : nat) (st : state world) :
  (List.length entries < fuel)%nat ->
  log_available entries fuel 0 st
  = Ret (emit_all (map (fun d => ev_RARCH_LOG_OUTPUT (tab ++ ident d ++ nl)) entries) st).
Proof.
  intros Hfuel.
  exact (log_available_from entries entries [] fuel st eq_refl Hfuel).
Qed.

(** A property kept by every public call that returns is kept by every
    run that returns. *)
Lemma run_preserves (P : state world -> Prop) :
  (forall c o st st', P st -> exec entries c o st = Ret st' -> P st') ->
  forall ops st st', P st -> run entries ops st = Ret st' -> P st'.
Proof.
  intros Hstep ops.
  induction ops as [ | [ c o ] ops IH ]; intros st st' HP Hrun.
  - inversion Hrun; subst st'. exact HP.
  - cbn [run] in Hrun.
    destruct (exec entries c o st) as [ st1 | | | ] eqn:Hexec; try discriminate.
    cbn [bind] in Hrun.
    exact (IH st1 st' (Hstep c o st st1 HP Hexec) Hrun).
Qed.

(** What the capability calls add to the trace: at most one event, never a
    driver [init] and never a driver [free]. *)
Lemma forwarders_trace (c : ctx world) (st : state world) :
  let quiet st' :=
    exists es, trace st' = trace st ++ es
               /\ Forall (fun e => is_init_call e = false /\ is_free e = false) es in
  quiet (snd (driver_location_start c st))
  /\ quiet (driver_location_stop st)
  /\ (forall ms dist, quiet (driver_location_set_interval ms dist st))
  /\ (forall out, quiet (snd (driver_location_get_position out st))).
Proof.
  cbv zeta.
  unfold driver_location_start, driver_location_stop,
    driver_location_set_interval, driver_location_get_position.
  repeat split; intros;
    repeat match goal with
           | |- context [match ?x with _ => _ end] => destruct x
           end;
    first [ exists []; split; [ symmetry; apply app_nil_r | constructor ]
          | eexists; split; [ reflexivity | repeat constructor ] ].
Qed.

Lemma quiet_counts (es : list event) :
  Forall (fun e => is_init_call e = false /\ is_free e = false) es ->
  count is_free es = 0%nat /\ allocations es = 0%nat
  /\ (forall name h, ~ In (ev_init name h) es).
Proof.
  intros Hes. induction Hes as [ | e es [Hcall Hfree] _ (IHf & IHa & IHi) ].
  - repeat split. intros name h [].
  - unfold count, allocations in *. simpl. rewrite Hfree.
    destruct e; try discriminate; simpl; repeat split; try assumption;
      intros name h' [ Heq | Hin ]; try discriminate; exact (IHi name h' Hin).
Qed.

(** One public call: the trace only grows; what it adds frees no more
    handles than were bound or handed out; a handle bound afterwards was
    bound before or was handed out by a driver [init] in this call. *)
Lemma exec_ledger (c : ctx world) (o : op) (st st' : state world) :
  exec entries c o st = Ret st' ->
  exists es,
    trace st' = trace st ++ es
    /\ (count is_free es + bound_handles st' <= allocations es + bound_handles st)%nat
    /\ (forall h, location_data st' = Some h ->
          location_data st = Some h \/ exists name, In (ev_init name (Some h)) es).
Proof.
  intros Hexec.
  assert (Hquiet : forall (st1 : state world) (es : list event),
            location_data st1 = location_data st ->
            trace st1 = trace st ++ es ->
            Forall (fun e => is_init_call e = false /\ is_free e = false) es ->
            exists es,
              trace st1 = trace st ++ es
              /\ (count is_free es + bound_handles st1
                  <= allocations es + bound_handles st)%nat
              /\ (forall h, location_data st1 = Some h ->
                    location_data st = Some h
                    \/ exists name, In (ev_init name (Some h)) es)).
  { intros st1 es Hdata Htr Hes.
    destruct (quiet_counts es Hes) as (Hf & Ha & _).
    exists es. split; [ exact Htr | ]. split.
    - unfold bound_handles. rewrite Hdata, Hf, Ha. lia.
    - intros h Hh. left. rewrite <- Hdata. exact Hh. }
  destruct (forwarders_keep_binding c st) as (Bstart & Bstop & Bival & Bpos).
  destruct (forwarders_trace c st) as (Tstart & Tstop & Tival & Tpos).
  destruct o as [ | o | | | ms dist | out ]; cbn [exec] in Hexec.
  - destruct (location_data st) as [ h | ] eqn:Hdata.
    + rewrite (init_location_bound entries c st h Hdata) in Hexec.
      inversion Hexec; subst st'.
      apply (Hquiet st []); [ exact Hdata | symmetry; apply app_nil_r | constructor ].
    + destruct (init_location_effect entries c st st' Hdata Hexec)
        as (drv & es & _ & Hes & _ & _ & _ & Htrace).
      destruct (init_location_counts entries c st st' Hdata Hexec)
        as (_ & _ & Hfree & Halloc).
      eexists. split; [ exact Htrace | ].
      rewrite Htrace in Hfree, Halloc. unfold allocations in *.
      rewrite count_app in Hfree. unfold count in *.
      rewrite filter_app, length_app in Halloc.
      split.
      * unfold bound_handles at 2. rewrite Hdata. lia.
      * intros h Hh. right. exists (ident drv). rewrite Hh.
        apply in_cons. apply in_or_app. right. left. reflexivity.
  - inversion Hexec; subst st'. clear Hexec.
    destruct o; cbn [snd location_driver_ctl];
      try (apply (Hquiet _ []);
           [ reflexivity | symmetry; apply app_nil_r | constructor ]).
    destruct (uninit_location_frame c st) as (Hnone & _).
    destruct (location_data st) as [ data | ] eqn:Hdata.
    + destruct (location_driver st) as [ drv | ] eqn:Hdrv.
      * destruct (uninit_location_bound c st drv data Hdrv Hdata) as (Htr & _).
        exists (teardown_calls c drv data). split; [ exact Htr | ]. split.
        -- unfold bound_handles. rewrite Hnone, Hdata.
           unfold teardown_calls, count, allocations.
           destruct (deinitialized (location_cb c)); destruct (free drv);
             simpl; lia.
        -- intros h Hh. rewrite Hnone in Hh. discriminate.
      * rewrite (uninit_location_unbound c st (or_intror Hdrv)).
        exists []. split; [ symmetry; apply app_nil_r | ]. split.
        -- unfold bound_handles. simpl. lia.
        -- intros h Hh. discriminate.
    + rewrite (uninit_location_unbound c st (or_introl Hdata)).
      exists []. split; [ symmetry; apply app_nil_r | ]. split.
      * unfold bound_handles. simpl. lia.
      * intros h Hh. discriminate.
  - inversion Hexec; subst st'. destruct Tstart as (es & Htr & Hes).
    apply (Hquiet _ es); [ apply Bstart | exact Htr | exact Hes ].
  - inversion Hexec; subst st'. destruct Tstop as (es & Htr & Hes).
    apply (Hquiet _ es); [ apply Bstop | exact Htr | exact Hes ].
  - inversion Hexec; subst st'. destruct (Tival ms dist) as (es & Htr & Hes).
    apply (Hquiet _ es); [ apply Bival | exact Htr | exact Hes ].
  - inversion Hexec; subst st'. destruct (Tpos out) as (es & Htr & Hes).
    apply (Hquiet _ es); [ apply Bpos | exact Htr | exact Hes ].
Qed.

Lemma exec_points_into (c : ctx world) (o : op) (st st' : state world) :
  points_into entries st -> exec entries c o st = Ret st' -> points_into entries st'.
Proof.
  intros HP Hexec. unfold points_into in *.
  destruct (forwarders_keep_binding c st) as (Bstart & Bstop & Bival & Bpos).
  destruct o as [ | o | | | ms dist | out ]; cbn [exec] in Hexec.
  - destruct (location_data st) as [ h | ] eqn:Hdata.
    + rewrite (init_location_bound entries c st h Hdata) in Hexec.
      inversion Hexec; subst st'. exact HP.
    + destruct (init_location_effect entries c st st' Hdata Hexec)
        as (drv & es & Hin & _ & Hdrv & _).
      rewrite Hdrv. exact Hin.
  - inversion Hexec; subst st'.
    destruct o; cbn [snd location_driver_ctl]; try exact HP.
    + exact I.
    + destruct (uninit_location_frame c st) as (_ & Hkeep & _).
      rewrite Hkeep. exact HP.
  - inversion Hexec; subst st'. destruct Bstart as [Hd _]. rewrite Hd. exact HP.
  - inversion Hexec; subst st'. destruct Bstop as [Hd _]. rewrite Hd. exact HP.
  - inversion Hexec; subst st'. destruct (Bival ms dist) as [Hd _].
    rewrite Hd. exact HP.
  - inversion Hexec; subst st'. destruct (Bpos out) as [Hd _].
    rewrite Hd. exact HP.
Qed.

(** In every state a run of public calls from the zeroed statics ends in,
    [location_driver] is NULL or one of the registry's entries. *)
Theorem run_points_into (ops : list (ctx world * op)) (w : world) (st : state world) :
  run entries ops (initial_state w) = Ret st -> points_into entries st.
Proof.
  apply (run_preserves (points_into entries)).
  - exact exec_points_into.
  - exact I.
Qed.


(** Over any run of public calls from the zeroed statics, a handle held in
    [location_data] is one that some driver's [init] returned earlier in
    the run. *)
Theorem run_handle_from_init (ops : list (ctx world * op)) (w : world)
    (st : state world) (h : handle) :
  run entries ops (initial_state w) = Ret st ->
  location_data st = Some h ->
  exists name, In (ev_init name (Some h)) (trace st).
Proof.
  intros Hrun. revert h.
  apply (run_preserves
           (fun st => forall h, location_data st = Some h ->
                                exists name, In (ev_init name (Some h)) (trace st)))
    with (ops := ops) (st := initial_state w); [ | | exact Hrun ].
  - intros c o st0 st1 HP Hexec h Hh.
    destruct (exec_ledger c o st0 st1 Hexec) as (es & Htr & _ & Hfrom).
    rewrite Htr.
    destruct (Hfrom h Hh) as [ Hold | (name & Hin) ].
    + destruct (HP h Hold) as (name & Hin).
      exists name. apply in_or_app. left. exact Hin.
    + exists name. apply in_or_app. right. exact Hin.
  - intros h Hh. discriminate.
Qed.

End Runs.

Lemma log_available_enumerates_witness :
  log_available sample_entries 5 0 (initial_state 0%nat)
  = Ret (emit_all [ev_RARCH_LOG_OUTPUT (tab ++ "sensor" ++ nl);
                   ev_RARCH_LOG_OUTPUT (tab ++ "null" ++ nl)]
           (initial_state 0%nat)).
Proof.
  apply (log_available_enumerates sample_entries 5 (initial_state 0%nat)).
  simpl. lia.
Defined.

Lemma run_points_into_witness : points_into sample_entries sample_final.
Proof.
  apply (run_points_into sample_entries sample_ops 0%nat sample_final).
  vm_compute. reflexivity.
Defined.


Lemma run_handle_from_init_witness :
  exists name, In (ev_init name (Some 1%positive)) (trace sample_final).
Proof.
  apply (run_handle_from_init sample_entries sample_ops 0%nat sample_final 1%positive);
    vm_compute; reflexivity.
Defined.
